(** * hsd-ledger: the signing-input model, the status table and the
    protocol engine, embedded from the JavaScript sources

  - [common]  : lib/apdu/common.js  (status words and their messages)
  - [Input]   : lib/ledger/input.js (class LedgerInput)
  - [Client]  : lib/ledger/client.js (class LedgerClient)

  JavaScript objects are records, [null]/[undefined] is [None], an
  exception is the [Throw] outcome of a computation that still hands back
  the (possibly half-updated) object it ran on. *)

From Stdlib Require Import ZArith Lia.
From Stdlib.Strings Require Import Byte.
From stdpp Require Import base option list strings gmap.

Local Open Scope string_scope.
Local Open Scope list_scope.
Local Open Scope Z_scope.

(** ** Exceptions and stateful methods *)

Module Js.

(** What a [throw] carries.  [AssertionError] is what bsert's [assert]
    raises, [TypeError] a property access on [null], [LedgerError] the
    repository's own error class (message, and the status word when the
    device reported one), [EncodingError] bufio's out-of-bounds error and
    [TransportError] a failure of the device's [exchange]. *)
Inductive Error : Type :=
| AssertionError (message : string)
| TypeError (message : string)
| LedgerError (message : string) (code : option Z)
| EncodingError (message : string)
| TransportError (message : string).

Inductive Result (A : Type) : Type :=
| Ok (a : A)
| Throw (e : Error).
Arguments Ok {A} a.
Arguments Throw {A} e.

Definition is_ok {A} (r : Result A) : bool :=
  match r with Ok _ => true | Throw _ => false end.

(** A method running on an object of type [St]: the outcome and the object
    afterwards.  A method that throws midway leaves its earlier
    assignments in place. *)
Definition M (St A : Type) : Type := St -> Result A * St.

Definition ret {St A} (a : A) : M St A := fun s => (Ok a, s).

Definition throw {St A} (e : Error) : M St A := fun s => (Throw e, s).

Definition bind {St A B} (m : M St A) (k : A -> M St B) : M St B :=
  fun s => match m s with
           | (Ok a, s') => k a s'
           | (Throw e, s') => (Throw e, s')
           end.

Definition get {St} : M St St := fun s => (Ok s, s).

Definition gets {St A} (f : St -> A) : M St A := fun s => (Ok (f s), s).

Definition modify {St} (f : St -> St) : M St unit := fun s => (Ok tt, f s).

(** [assert(cond, message)] *)
Definition assert {St} (cond : bool) (message : string) : M St unit :=
  if cond then ret tt else throw (AssertionError message).

(** A pure computation that may throw, run inside a method. *)
Definition lift {St A} (r : Result A) : M St A := fun s => (r, s).

(** [for (const x of xs) body(x)] *)
Fixpoint for_of {St A} (xs : list A) (body : A -> M St unit) : M St unit :=
  match xs with
  | [] => ret tt
  | x :: rest => bind (body x) (fun _ => for_of rest body)
  end.

End Js.

Import Js.

Declare Scope js_scope.
Delimit Scope js_scope with js.
Notation "x <- m ;; k" := (Js.bind m (fun x => k))
(at level 100, m at next level, right associativity) : js_scope.
Notation "m ;;; k" := (Js.bind m (fun _ => k))
(at level 100, right associativity) : js_scope.

(** ** bufio: fixed-width integers, varints and the static writer *)

Module bufio.

Definition byte_of_Z (z : Z) : byte :=
  match Byte.of_N (Z.to_N (z mod 256)) with
  | Some b => b
  | None => x00
  end.

(** [w] bytes of [n], least significant first. *)
Fixpoint le_bytes (w : nat) (n : Z) : list byte :=
  match w with
  | O => []
  | S w' => byte_of_Z n :: le_bytes w' (n / 256)
  end.

Definition u8 (n : Z) : list byte := le_bytes 1 n.
Definition u16 (n : Z) : list byte := le_bytes 2 n.
Definition u32 (n : Z) : list byte := le_bytes 4 n.
Definition u64 (n : Z) : list byte := le_bytes 8 n.

(** [encoding.sizeVarint] *)
Definition sizeVarint (n : Z) : nat :=
  if n <? 0xfd then 1%nat
  else if n <=? 0xffff then 3%nat
  else if n <=? 0xffffffff then 5%nat
  else 9%nat.

(** the bytes [writeVarint] appends *)
Definition varint (n : Z) : list byte :=
  if n <? 0xfd then u8 n
  else if n <=? 0xffff then byte_of_Z 0xfd :: u16 n
  else if n <=? 0xffffffff then byte_of_Z 0xfe :: u32 n
  else byte_of_Z 0xff :: u64 n.

(** [bufio.write(size)]: a writer over a buffer allocated once; the
    offset is the number of bytes written so far. *)
Record StaticWriter : Type := mkWriter {
  capacity : nat;
  written : list byte
}.

Definition write (size : nat) : StaticWriter :=
  {| capacity := size; written := [] |}.

Definition writeBytes (bs : list byte) : M StaticWriter unit :=
  fun bw =>
    if (length (written bw) + length bs <=? capacity bw)%nat
    then (Ok tt, {| capacity := capacity bw; written := written bw ++ bs |})
    else (Throw (EncodingError "Out of bounds write"), bw).

Definition writeU8 (n : Z) : M StaticWriter unit := writeBytes (u8 n).
Definition writeU32 (n : Z) : M StaticWriter unit := writeBytes (u32 n).
Definition writeU64 (n : Z) : M StaticWriter unit := writeBytes (u64 n).
Definition writeVarint (n : Z) : M StaticWriter unit := writeBytes (varint n).

(** [render()] insists that the buffer was filled exactly. *)
Definition render : M StaticWriter (list byte) :=
  fun bw =>
    if (length (written bw) =? capacity bw)%nat
    then (Ok (written bw), bw)
    else (Throw (EncodingError "Out of bounds write"), bw).

(** An object of an external library that serialises itself into a
    writer and announces its size beforehand ([getSize]/[getVarSize] and
    [write] of hsd's primitives). *)
Class Writable (T : Type) : Type := {
  encode : T -> list byte;
  size_of : T -> nat;
  size_of_encode : forall x, length (encode x) = size_of x
}.

(** A writer step that appends exactly [bs] whenever the buffer has room
    for them. *)
Definition emits (m : M StaticWriter unit) (bs : list byte) : Prop :=
  forall bw,
    (length (written bw) + length bs <= capacity bw)%nat ->
    m bw = (Ok tt, {| capacity := capacity bw; written := written bw ++ bs |}).

End bufio.

(** ** lib/apdu/common.js *)

Module common.

(** An object literal: later properties overwrite earlier ones of the
    same name. *)
Definition object {V} (props : list (string * V)) : gmap string V :=
  foldl (fun m kv => <[kv.1 := kv.2]> m) ∅ props.

Definition MAX_DEPTH : nat := 10.

Definition status : gmap string Z := object [
  ("CACHE_FLUSH_ERROR", 0x6f27);
  ("CACHE_WRITE_ERROR", 0x6f26);
  ("CANNOT_ENCODE_ADDRESS", 0x6f14);
  ("CANNOT_ENCODE_XPUB", 0x6f23);
  ("CANNOT_INIT_BLAKE2B_CTX", 0x6f13);
  ("CANNOT_PEEK_SCRIPT_LEN", 0x6f1e);
  ("CANNOT_READ_BIP32_PATH", 0x6f15);
  ("CANNOT_READ_INPUT_INDEX", 0x6f1b);
  ("CANNOT_READ_INPUTS_LEN", 0x6f18);
  ("CANNOT_READ_OUTPUTS_LEN", 0x6f19);
  ("CANNOT_READ_OUTPUTS_SIZE", 0x6f1a);
  ("CANNOT_READ_TX_VERSION", 0x6f16);
  ("CANNOT_READ_TX_LOCKTIME", 0x6f17);
  ("CANNOT_READ_SCRIPT_LEN", 0x6f1d);
  ("CANNOT_READ_SIGHASH_TYPE", 0x6f1c);
  ("CANNOT_UPDATE_UI", 0x6f28);
  ("CLA_NOT_SUPPORTED", 0x6e00);
  ("CONDITIONS_OF_USE_NOT_SATISFIED", 0x6985);
  ("FAILED_TO_SIGN_INPUT", 0x6f29);
  ("FILE_NOT_FOUND", 0x6a82);
  ("INCORRECT_ADDR_PATH", 0x6f25);
  ("INCORRECT_INPUT_INDEX", 0x6f1F);
  ("INCORRECT_LENGTH", 0x6701);
  ("INCORRECT_LC", 0x6700);
  ("INCORRECT_CDATA", 0x6a80);
  ("INCORRECT_P1", 0x6af1);
  ("INCORRECT_P2", 0x6af2);
  ("INCORRECT_PARAMETERS", 0x6b00);
  ("INCORRECT_PARSER_STATE", 0x6f21);
  ("INCORRECT_SIGHASH_TYPE", 0x6f20);
  ("INCORRECT_SIGNATURE_PATH", 0x6f22);
  ("INCORRECT_INPUTS_LEN", 0x6f24);
  ("INTERNAL_ERROR", 0x6f);
  ("INS_NOT_SUPPORTED", 0x6d00);
  ("SECURITY_CONDITION_NOT_SATISFIED", 0x6982);
  ("SUCCESS", 0x9000)
].

Definition errorByStatus : gmap string string := object [
  ("CACHE_FLUSH_ERROR", "Error flushing internal cache");
  ("CACHE_WRITE_ERROR", "Error writing to internal cache");
  ("CANNOT_ENCODE_ADDRESS", "Cannot bech32 encode address");
  ("CANNOT_ENCODE_XPUB", "Cannot base58 encode xpub");
  ("CANNOT_INIT_BLAKE2B_CTX", "Cannot initialize blake2b context");
  ("CANNOT_PEEK_SCRIPT_LEN", "Cannot peek input script length");
  ("CANNOT_READ_BIP32_PATH", "Cannot read BIP32 path");
  ("CANNOT_READ_INPUT_INDEX", "Cannot read index of input");
  ("CANNOT_READ_INPUTS_LEN", "Cannot read input vector length");
  ("CANNOT_READ_OUTPUTS_LEN", "Cannot read output vector length");
  ("CANNOT_READ_OUTPUTS_SIZE", "Cannot read size of outputs vector");
  ("CANNOT_READ_TX_VERSION", "Cannot read tx version");
  ("CANNOT_READ_TX_LOCKTIME", "Cannot read tx locktime");
  ("CANNOT_READ_SCRIPT_LEN", "Cannot read input script length");
  ("CANNOT_READ_SIGHASH_TYPE", "Cannot read sighash type");
  ("CANNOT_UPDATE_UI", "Cannot update Ledger UI");
  ("CLA_NOT_SUPPORTED", "Instruction not supported (check app on the device)");
  ("CONDITIONS_OF_USE_NOT_SATISFIED", "User rejected on-screen confirmation");
  ("FAILED_TO_SIGN_INPUT", "Failed to sign input");
  ("FILE_NOT_FOUND", "File not found");
  ("INCORRECT_ADDR_PATH", "Incorrect BIP44 address path");
  ("INCORRECT_CDATA", "Incorrect CDATA (command data)");
  ("INCORRECT_INPUT_INDEX", "Input index larger than inputs vector length");
  ("INCORRECT_INPUTS_LEN", "Inputs vector length is larger than device limit");
  ("INCORRECT_LENGTH", "Incorrect length");
  ("INCORRECT_LC", "Incorrect LC (length of command data)");
  ("INCORRECT_P1", "Incorrect P1");
  ("INCORRECT_P2", "Incorrect P2");
  ("INCORRECT_PARAMETERS", "Incorrect parameters (P1 or P2)");
  ("INCORRECT_PARSER_STATE", "Incorrect parser state");
  ("INCORRECT_SIGHASH_TYPE", "Incorrect sighash type");
  ("INCORRECT_SIGNATURE_PATH", "Incorrect signature path");
  ("INS_NOT_SUPPORTED", "Instruction not supported (check app on the device)");
  ("INTERNAL_ERROR", "Internal error");
  ("SECURITY_CONDITION_NOT_SATISFIED", "Invalid security status");
  ("UNKNOWN_ERROR", "Unknown status code")
].

(** Modelled from the spec: [util.reverse] (lib/utils/util.js is not among
    the sources).  The spec calls the table a mapping from status word to
    named kind, so the helper turns every property [name: code] into
    [code: name]. *)
Definition reverse (obj : gmap string Z) : gmap Z string :=
  map_fold (fun name code acc => <[code := name]> acc) ∅ obj.

Definition statusByVal : gmap Z string := reverse status.

(** Modelled from the spec: the error a non-success status word is turned
    into (lib/apdu and lib/ledger/error.js are not among the sources):
    the word is looked up in the table, and a word the table lacks still
    gives a typed error with the raw code and the generic message. *)
Definition errorOfStatus (code : Z) : Error :=
  let unknown := default "" (errorByStatus !! "UNKNOWN_ERROR") in
  match statusByVal !! code with
  | Some name => LedgerError (default unknown (errorByStatus !! name)) (Some code)
  | None => LedgerError unknown (Some code)
  end.

(** The table names a status word with [name] and with no other name. *)
Definition names_exactly (code : Z) (name : string) : Prop :=
  status !! name = Some code /\
  map_Forall (fun k v => v = code -> k = name) status.

(** A status word is documented when the table gives it this one name,
    the name has this message, and the message is not the fallback one. *)
Definition documented (code : Z) (name message : string) : Prop :=
  names_exactly code name /\
  errorByStatus !! name = Some message /\
  errorByStatus !! "UNKNOWN_ERROR" <> Some message.

End common.


(** ** hsd: the primitives of the external library the sources use *)

Module hsd.

Inductive Network : Type := main | testnet | regtest | simnet.

(** [Network.primary] *)
Definition primary : Network := main.

(** A script is carried as its raw bytes. *)
Record Script : Type := mkScript { raw : list byte }.

(** [Script.fromRaw] *)
Definition fromRaw (data : list byte) : Script := mkScript data.

(** [script.getVarSize()] and what [script.write(bw)] appends: the raw
    bytes behind their own length as a varint. *)
Definition getVarSize (s : Script) : nat :=
  (bufio.sizeVarint (Z.of_nat (length (raw s))) + length (raw s))%nat.

Definition varBytes (s : Script) : list byte :=
  bufio.varint (Z.of_nat (length (raw s))) ++ raw s.

(** [Script.hashType] *)
Definition ALL : Z := 1.
Definition NONE : Z := 2.
Definition SINGLE : Z := 3.
Definition SINGLEREVERSE : Z := 4.
Definition NOINPUT : Z := 0x40.
Definition ANYONECANPAY : Z := 0x80.

Record Address : Type := mkAddress {
  addr_version : Z;
  addr_hash : list byte
}.

(** [address.isScripthash()] *)
Definition isScripthash (a : Address) : bool :=
  (addr_version a =? 0) && (length (addr_hash a) =? 32)%nat.

Record Outpoint : Type := mkOutpoint {
  prevout_hash : list byte;
  prevout_index : Z
}.

Record Coin : Type := mkCoin {
  coin_value : Z;
  coin_address : Address;
  coin_hash : list byte;
  coin_index : Z
}.

Record KeyRing : Type := mkKeyRing {
  ring_publicKey : list byte;
  ring_network : Network;
  ring_script : option Script
}.

(** [ring.script = redeem] *)
Definition set_ring_script (r : KeyRing) (redeem : Script) : KeyRing :=
  {| ring_publicKey := ring_publicKey r;
     ring_network := ring_network r;
     ring_script := Some redeem |}.

Record Covenant : Type := mkCovenant {
  covenant_type : Z;
  covenant_items : list (list byte)
}.

Record Input : Type := mkInput {
  prevout : Outpoint;
  sequence : Z
}.

Record Output : Type := mkOutput {
  value : Z;
  address : Address;
  covenant : Covenant
}.

Record MTX : Type := mkMTX {
  version : Z;
  locktime : Z;
  inputs : list Input;
  outputs : list Output
}.

(** The functions of the library, and of the repository's own
    lib/utils/util.js, whose bodies the model leaves open: key validation
    and hashing, script templates, outpoint keys and path parsing. *)
Class Externals : Type := {
  (** [KeyRing.fromPublic(publicKey, network)] *)
  fromPublic : list byte -> Network -> Result KeyRing;
  (** [ring.getKeyHash()] *)
  getKeyHash : KeyRing -> list byte;
  (** [Script.fromPubkeyhash(hash)] *)
  fromPubkeyhash : list byte -> Script;
  (** [outpoint.toKey()] *)
  outpointKey : Outpoint -> string;
  (** [util.parsePath(path, true)] *)
  parsePath : string -> Result (list Z)
}.

End hsd.

(** ** lib/ledger/input.js *)

Module Input.
Import hsd.

(** The values an options object can carry where the code tests their
    shape.  A missing, [null] or otherwise falsy property is [None]. *)
Inductive PathValue : Type :=
| PathString (s : string)
| PathArray (indices : list Z)
| PathOther.

Inductive RedeemValue : Type :=
| RedeemBuffer (data : list byte)
| RedeemScript (s : Script)
| RedeemOther.

Inductive KeyValue : Type :=
| KeyBuffer (data : list byte)
| KeyOther.

Record Options : Type := mkOptions {
  opt_path : option PathValue;
  opt_coin : option Coin;          (* [None]: not a Coin *)
  opt_redeem : option RedeemValue;
  opt_publicKey : option KeyValue;
  opt_type : option Z
}.

(** The object: the five fields of the constructor, its four cache fields,
    and the three properties other methods read or write ([_outpoint],
    [_coin], [script]), which are [undefined] on a new object. *)
Record LedgerInput : Type := mkLedgerInput {
  path : list Z;
  coin : option Coin;
  redeem : option Script;
  publicKey : option (list byte);
  type : Z;
  _ring : option KeyRing;
  _key : string;
  _prev : option Script;
  _prevred : option Script;
  _outpoint : option Outpoint;
  _coin : option Coin;
  script : option Script
}.

(** Assignments [this.field = v]. *)
Definition set_path (v : list Z) (this : LedgerInput) : LedgerInput :=
  {| path := v;
     coin := coin this;
     redeem := redeem this;
     publicKey := publicKey this;
     type := type this;
     _ring := _ring this;
     _key := _key this;
     _prev := _prev this;
     _prevred := _prevred this;
     _outpoint := _outpoint this;
     _coin := _coin this;
     script := script this |}.

Definition set_coin (v : option Coin) (this : LedgerInput) : LedgerInput :=
  {| path := path this;
     coin := v;
     redeem := redeem this;
     publicKey := publicKey this;
     type := type this;
     _ring := _ring this;
     _key := _key this;
     _prev := _prev this;
     _prevred := _prevred this;
     _outpoint := _outpoint this;
     _coin := _coin this;
     script := script this |}.

Definition set_redeem (v : option Script) (this : LedgerInput) : LedgerInput :=
  {| path := path this;
     coin := coin this;
     redeem := v;
     publicKey := publicKey this;
     type := type this;
     _ring := _ring this;
     _key := _key this;
     _prev := _prev this;
     _prevred := _prevred this;
     _outpoint := _outpoint this;
     _coin := _coin this;
     script := script this |}.

Definition set_publicKey (v : option (list byte)) (this : LedgerInput) : LedgerInput :=
  {| path := path this;
     coin := coin this;
     redeem := redeem this;
     publicKey := v;
     type := type this;
     _ring := _ring this;
     _key := _key this;
     _prev := _prev this;
     _prevred := _prevred this;
     _outpoint := _outpoint this;
     _coin := _coin this;
     script := script this |}.

Definition set_type (v : Z) (this : LedgerInput) : LedgerInput :=
  {| path := path this;
     coin := coin this;
     redeem := redeem this;
     publicKey := publicKey this;
     type := v;
     _ring := _ring this;
     _key := _key this;
     _prev := _prev this;
     _prevred := _prevred this;
     _outpoint := _outpoint this;
     _coin := _coin this;
     script := script this |}.

Definition set__ring (v : option KeyRing) (this : LedgerInput) : LedgerInput :=
  {| path := path this;
     coin := coin this;
     redeem := redeem this;
     publicKey := publicKey this;
     type := type this;
     _ring := v;
     _key := _key this;
     _prev := _prev this;
     _prevred := _prevred this;
     _outpoint := _outpoint this;
     _coin := _coin this;
     script := script this |}.

Definition set__key (v : string) (this : LedgerInput) : LedgerInput :=
  {| path := path this;
     coin := coin this;
     redeem := redeem this;
     publicKey := publicKey this;
     type := type this;
     _ring := _ring this;
     _key := v;
     _prev := _prev this;
     _prevred := _prevred this;
     _outpoint := _outpoint this;
     _coin := _coin this;
     script := script this |}.

Definition set__prev (v : option Script) (this : LedgerInput) : LedgerInput :=
  {| path := path this;
     coin := coin this;
     redeem := redeem this;
     publicKey := publicKey this;
     type := type this;
     _ring := _ring this;
     _key := _key this;
     _prev := v;
     _prevred := _prevred this;
     _outpoint := _outpoint this;
     _coin := _coin this;
     script := script this |}.

Definition set__prevred (v : option Script) (this : LedgerInput) : LedgerInput :=
  {| path := path this;
     coin := coin this;
     redeem := redeem this;
     publicKey := publicKey this;
     type := type this;
     _ring := _ring this;
     _key := _key this;
     _prev := _prev this;
     _prevred := v;
     _outpoint := _outpoint this;
     _coin := _coin this;
     script := script this |}.

Definition set__outpoint (v : option Outpoint) (this : LedgerInput) : LedgerInput :=
  {| path := path this;
     coin := coin this;
     redeem := redeem this;
     publicKey := publicKey this;
     type := type this;
     _ring := _ring this;
     _key := _key this;
     _prev := _prev this;
     _prevred := _prevred this;
     _outpoint := v;
     _coin := _coin this;
     script := script this |}.

Definition set__coin (v : option Coin) (this : LedgerInput) : LedgerInput :=
  {| path := path this;
     coin := coin this;
     redeem := redeem this;
     publicKey := publicKey this;
     type := type this;
     _ring := _ring this;
     _key := _key this;
     _prev := _prev this;
     _prevred := _prevred this;
     _outpoint := _outpoint this;
     _coin := v;
     script := script this |}.

Section Methods.
Context `{Externals}.
Local Open Scope js_scope.

(** The object [new LedgerInput()] starts from. *)
Definition fresh : LedgerInput :=
  {| path := []; coin := None; redeem := None; publicKey := None;
     type := ALL;
     _ring := None; _key := ""; _prev := None; _prevred := None;
     _outpoint := None; _coin := None; script := None |}.

(** [this.coin.<property>]: a [TypeError] when [this.coin] is [null]. *)
Definition this_coin : M LedgerInput Coin :=
  this <- get;;
  match coin this with
  | Some c => ret c
  | None => throw (TypeError "Cannot read properties of null")
  end.

(** Is [options.path] truthy?  Every string but the empty one, every
    array, every other object. *)
Definition path_given (p : option PathValue) : bool :=
  match p with
  | None => false
  | Some (PathString s) => negb (String.eqb s "")
  | Some _ => true
  end.

(** [fromOptions(options)], the method.  It returns [this]; the model
    returns nothing and leaves the object as the state.  Where the method
    stores a parsed path or script back into [options] before reading it
    again, the model rebinds the value it read. *)
Definition fromOptions (options : option Options) : M LedgerInput unit :=
  match options with
  | None => throw (AssertionError "SignInput data is required.")
  | Some options =>
    assert (path_given (opt_path options)) "Path is required.";;;
    p <- match opt_path options with
         | Some (PathString s) => p <- lift (parsePath s);; ret (Some (PathArray p))
         | other => ret other
         end;;
    p <- match p with
         | Some (PathArray p) => ret p
         | _ => throw (AssertionError "Path must be Array or string")
         end;;
    modify (set_path p);;;
    match opt_type options with
    | Some t =>
      assert (negb (t =? ALL)) "Ledger only supports SIGHASH_ALL";;;
      modify (set_type t)
    | None => ret tt
    end;;;
    match opt_redeem options with
    | Some r =>
      r <- match r with
           | RedeemBuffer data => ret (fromRaw data)
           | RedeemScript s => ret s
           | RedeemOther => throw (AssertionError "Cannot use non-script redeem.")
           end;;
      modify (set_redeem (Some r))
    | None => ret tt
    end;;;
    this <- get;;
    match coin this with
    | None =>
      match opt_coin options with
      | Some c => modify (set_coin (Some c))
      | None => throw (AssertionError "LedgerInput needs Coin")
      end
    | Some _ => ret tt
    end;;;
    match opt_publicKey options with
    | Some k =>
      match k with
      | KeyBuffer data => modify (set_publicKey (Some data))
      | KeyOther => throw (AssertionError "Public key must be Buffer")
      end
    | None => ret tt
    end;;;
    c <- this_coin;;
    if isScripthash (coin_address c)
    then this <- get;;
         assert (bool_decide (is_Some (redeem this)))
                "Cannot sign ScriptHash without redeem."
    else ret tt
  end.

(** [LedgerInput.fromOptions(options)], the static constructor:
    [new this().fromOptions(options)].  An object whose construction threw
    is never seen by the caller. *)
Definition static_fromOptions (options : option Options) : Result LedgerInput :=
  match fromOptions options fresh with
  | (Ok _, this) => Ok this
  | (Throw e, _) => Throw e
  end.

(** [new LedgerInput(options)] *)
Definition constructor (options : option Options) : Result LedgerInput :=
  match options with
  | Some _ => static_fromOptions options
  | None => Ok fresh
  end.

(** [getOutpoint()] *)
Definition getOutpoint : M LedgerInput Outpoint :=
  this <- get;;
  match _outpoint this with
  | Some o => ret o
  | None =>
    c <- this_coin;;
    let o := {| prevout_hash := coin_hash c; prevout_index := coin_index c |} in
    modify (set__outpoint (Some o));;;
    ret o
  end.

(** [toKey()]: the cache is empty while [_key] is the empty string. *)
Definition toKey : M LedgerInput string :=
  this <- get;;
  if String.eqb (_key this) ""
  then o <- getOutpoint;;
       modify (set__key (outpointKey o));;;
       gets _key
  else ret (_key this).

(** [getRing(network = Network.primary)] *)
Definition getRing (network : Network) : M LedgerInput KeyRing :=
  this <- get;;
  match publicKey this with
  | None => throw (LedgerError "Cannot return ring without public key" None)
  | Some key =>
    match _ring this with
    | Some ring => ret ring
    | None =>
      ring <- lift (fromPublic key network);;
      let ring := match redeem this with
                  | Some r => set_ring_script ring r
                  | None => ring
                  end in
      modify (set__ring (Some ring));;;
      ret ring
    end
  end.

(** [getPrev()] *)
Definition getPrev : M LedgerInput Script :=
  this <- get;;
  match _prev this with
  | Some prev => ret prev
  | None =>
    match script this with
    | Some s => modify (set__prev (Some s));;; ret s
    | None =>
      ring <- getRing primary;;
      let prev := fromPubkeyhash (getKeyHash ring) in
      modify (set__prev (Some prev));;;
      ret prev
    end
  end.

(** [getPrevRedeem()].  On a script-hash coin it hands out [this.redeem]
    as it is, [null] included. *)
Definition getPrevRedeem : M LedgerInput (option Script) :=
  this <- get;;
  match _prevred this with
  | Some prevred => ret (Some prevred)
  | None =>
    c <- this_coin;;
    if isScripthash (coin_address c)
    then modify (set__prevred (redeem this));;;
         gets _prevred
    else prev <- getPrev;;
         modify (set__prevred (Some prev));;;
         gets _prevred
  end.

(** [getCoin()] *)
Definition getCoin : M LedgerInput (option Coin) := gets coin.

(** [refresh()] *)
Definition refresh : M LedgerInput unit :=
  modify (set__coin None);;;
  modify (set__ring None);;;
  modify (set__key "");;;
  modify (set__prev None);;;
  modify (set__outpoint None).

(** What [fromOptions] checks on the properties other than the redeem
    script: the path is an array or a string that parses, the sighash type
    passes the assertion as it is written, the public key is a Buffer. *)
Definition path_accepted (o : Options) : bool :=
  match opt_path o with
  | Some (PathArray _) => true
  | Some (PathString s) => negb (String.eqb s "") && is_ok (parsePath s)
  | _ => false
  end.

Definition type_accepted (o : Options) : bool :=
  match opt_type o with
  | Some t => negb (t =? ALL)
  | None => true
  end.

Definition key_accepted (o : Options) : bool :=
  match opt_publicKey o with
  | Some KeyOther => false
  | _ => true
  end.

Definition others_accepted (o : Options) : bool :=
  path_accepted o && type_accepted o && key_accepted o.

(** The redeem script an options object carries, if it carries one. *)
Definition redeem_given (o : Options) : option Script :=
  match opt_redeem o with
  | Some (RedeemBuffer data) => Some (fromRaw data)
  | Some (RedeemScript s) => Some s
  | _ => None
  end.

(** The ring [getRing] stores: the new ring, with the redeem script
    attached when there is one. *)
Definition with_redeem (redeem : option Script) (ring : KeyRing) : KeyRing :=
  match redeem with
  | Some r => set_ring_script ring r
  | None => ring
  end.

End Methods.

End Input.

(** ** lib/utils/util.js and lib/apdu: what the client calls *)

Module util.

(** Modelled from the spec: the cutting done by [util.splitBuffer]
    (lib/utils/util.js is not among the sources).  The buffer is cut, front
    to back, into chunks bounded by [size]: every chunk but the last holds
    [size] bytes, the last one what remains.  [fuel] bounds the number of
    chunks. *)
Fixpoint split_from (fuel : nat) (size : nat) (data : list byte) : list (list byte) :=
  match fuel with
  | O => []
  | S fuel' =>
    match data with
    | [] => []
    | _ => take size data :: split_from fuel' size (drop size data)
    end
  end.

(** Modelled from the spec: [util.splitBuffer(data, size)] itself, the
    cutting above run until the buffer is used up.  The packet sizes the
    client passes are constants of the same missing file; a [positive]
    bound keeps them above zero. *)
Definition splitBuffer (data : list byte) (size : positive) : list (list byte) :=
  split_from (length data) (Pos.to_nat size) data.

(** [ceil(len / size)] *)
Definition ceil_div (len : nat) (size : positive) : nat :=
  ((len + (Pos.to_nat size - 1)) / Pos.to_nat size)%nat.

End util.

Module apdu.

(** Modelled from the spec: the status word a response ends in
    (lib/apdu is not among the sources but for common.js): its last two
    bytes, the high byte first. *)
Definition statusWord (res : list byte) : option Z :=
  match rev res with
  | lo :: hi :: _ => Some (Z.of_N (Byte.to_N hi) * 256 + Z.of_N (Byte.to_N lo))
  | _ => None
  end.

Definition SUCCESS : Z := default 0 (common.status !! "SUCCESS").

(** Modelled from the spec: [APDUResponse.parseTX(res)].  The terminal
    status word is read first; any word but SUCCESS is thrown as the error
    the table maps it to; a successful response to a transaction chunk is
    an empty acknowledgement, so any other length is a protocol error. *)
Definition parseTX_response (res : list byte) : Result unit :=
  match statusWord res with
  | None => Throw (LedgerError "Invalid response length" None)
  | Some sw =>
    if sw =? SUCCESS
    then if (length res =? 2)%nat
         then Ok tt
         else Throw (LedgerError "Invalid response length" None)
    else Throw (common.errorOfStatus sw)
  end.

End apdu.

(** ** lib/ledger/client.js *)

Module Client.
Import hsd Input.

(** The requests written to the device so far, oldest first. *)
Definition Wire : Type := list (list byte).

Section Engine.
Context `{Externals}.
(** hsd's serialisers of outpoints, addresses and covenants *)
Context `{bufio.Writable Outpoint} `{bufio.Writable Address} `{bufio.Writable Covenant}.
(** [util.MAX_TX_PACKET], [util.MAX_SCRIPT_PACKET] *)
Variables MAX_TX_PACKET MAX_SCRIPT_PACKET : positive.
(** [APDUCommand.parseTX(data, first).toRaw()] *)
Variable parseTX_command : option (list byte) -> bool -> Result (list byte).
(** [APDUCommand.getInputSignature(ledgerInput, input, data, first).toRaw()] *)
Variable getInputSignature_command :
  option LedgerInput -> option Input -> option (list byte) -> bool -> Result (list byte).
(** [APDUResponse.getInputSignature(res, more).data] *)
Variable getInputSignature_response : list byte -> bool -> Result (list byte).
(** The far end of [device.exchange]: what it answers, or how the round
    trip fails, given every request written so far, the current one last. *)
Variable device : Wire -> Result (list byte).

Local Open Scope js_scope.

(** [await this.device.exchange(raw)] *)
Definition exchange (raw : list byte) : M Wire (list byte) :=
  fun wire => (device (wire ++ [raw]), wire ++ [raw]).

(** Lines 108-128 of parseTX: the size of the buffer to allocate. *)
Definition outputsSize (mtx : MTX) : nat :=
  foldl (fun outs output =>
           outs + 8 + bufio.size_of (address output) + bufio.size_of (covenant output))%nat
        0%nat (outputs mtx).

Definition preambleSize (mtx : MTX) : nat :=
  let size := 0%nat in
  let size := (size + 8)%nat in
  let size := (size + bufio.sizeVarint (Z.of_nat (length (inputs mtx))))%nat in
  let size := (size + bufio.sizeVarint (Z.of_nat (length (outputs mtx))))%nat in
  let size := foldl (fun size input =>
                       size + 4 + bufio.size_of (prevout input))%nat
                    size (inputs mtx) in
  let outs := outputsSize mtx in
  let size := (size + bufio.sizeVarint (Z.of_nat outs))%nat in
  (size + outs)%nat.

(** Lines 130-149 of parseTX: fill the buffer and render it. *)
Definition writePreamble (mtx : MTX) : M bufio.StaticWriter (list byte) :=
  bufio.writeU32 (version mtx);;;
  bufio.writeU32 (locktime mtx);;;
  bufio.writeVarint (Z.of_nat (length (inputs mtx)));;;
  bufio.writeVarint (Z.of_nat (length (outputs mtx)));;;
  bufio.writeVarint (Z.of_nat (outputsSize mtx));;;
  for_of (inputs mtx) (fun input =>
    bufio.writeBytes (bufio.encode (prevout input));;;
    bufio.writeU32 (sequence input));;;
  for_of (outputs mtx) (fun output =>
    bufio.writeU64 (value output);;;
    bufio.writeBytes (bufio.encode (address output));;;
    bufio.writeBytes (bufio.encode (covenant output)));;;
  bufio.render.

Definition renderPreamble (mtx : MTX) : Result (list byte) :=
  fst (writePreamble mtx (bufio.write (preambleSize mtx))).

(** [parseTX(mtx, ledgerInputByKey)] *)
Definition parseTX (mtx : MTX) (ledgerInputByKey : gmap string LedgerInput)
  : M Wire unit :=
  buf <- lift (renderPreamble mtx);;
  let msgs := util.splitBuffer buf MAX_TX_PACKET in
  let fst := head msgs in
  let msgs := tail msgs in
  packet <- lift (parseTX_command fst true);;
  res <- exchange packet;;
  lift (apdu.parseTX_response res);;;
  for_of msgs (fun msg =>
    packet <- lift (parseTX_command (Some msg) false);;
    res <- exchange packet;;
    lift (apdu.parseTX_response res)).

(** A method of the input run from the client, which holds the input and
    the wire. *)
Definition on_input {A} (m : M LedgerInput A) : M (LedgerInput * Wire) A :=
  fun st => let '(r, this) := m st.1 in (r, (this, st.2)).

Definition on_wire {A} (m : M Wire A) : M (LedgerInput * Wire) A :=
  fun st => let '(r, wire) := m st.2 in (r, (st.1, wire)).

(** [getInputSignature(ledgerInput, hsdInput)] *)
Definition getInputSignature (hsdInput : Input) : M (LedgerInput * Wire) (list byte) :=
  raw <- on_input getPrevRedeem;;
  raw <- match raw with
         | Some raw => ret raw
         | None => throw (TypeError "Cannot read properties of null")
         end;;
  script <- lift (fst ((bufio.writeBytes (varBytes raw);;; bufio.render)
                         (bufio.write (getVarSize raw))));;
  let msgs := util.splitBuffer script MAX_SCRIPT_PACKET in
  let first := head msgs in
  let msgs := tail msgs in
  ledgerInput <- gets fst;;
  packet <- lift (getInputSignature_command (Some ledgerInput) (Some hsdInput) first true);;
  res <- on_wire (exchange packet);;
  if (length msgs =? 0)%nat
  then lift (getInputSignature_response res false)
  else
    lift (getInputSignature_response res true);;;
    let last := last msgs in
    let msgs := removelast msgs in
    for_of msgs (fun msg =>
      packet <- lift (getInputSignature_command None None (Some msg) false);;
      res <- on_wire (exchange packet);;
      lift (getInputSignature_response res true);;; ret tt);;;
    packet <- lift (getInputSignature_command None None last false);;
    res <- on_wire (exchange packet);;
    lift (getInputSignature_response res false).

(** *** The vocabulary of the statements about the engine *)

(** The preamble as the specification lays it out, field by field. *)
Definition inputLayout (input : Input) : list byte :=
  bufio.encode (prevout input) ++ bufio.u32 (sequence input).

Definition outputLayout (output : Output) : list byte :=
  bufio.u64 (value output) ++ bufio.encode (address output)
  ++ bufio.encode (covenant output).

Definition outputsLayout (mtx : MTX) : list byte :=
  concat (map outputLayout (outputs mtx)).

Definition preambleLayout (mtx : MTX) : list byte :=
  bufio.u32 (version mtx)
  ++ bufio.u32 (locktime mtx)
  ++ bufio.varint (Z.of_nat (length (inputs mtx)))
  ++ bufio.varint (Z.of_nat (length (outputs mtx)))
  ++ bufio.varint (Z.of_nat (length (outputsLayout mtx)))
  ++ concat (map inputLayout (inputs mtx))
  ++ outputsLayout mtx.

(** The commands for the chunks of a transaction, in the order of the
    chunks: the first one tagged as a new message, the others not. *)
Definition txPackets (chunks : list (list byte)) : list (Result (list byte)) :=
  imap (fun i chunk => parseTX_command (Some chunk) (bool_decide (i = 0%nat))) chunks.

(** The commands for the chunks of a script: the first one carries the
    input, the others only their chunk. *)
Definition sigPackets (ledgerInput : LedgerInput) (hsdInput : Input)
    (chunks : list (list byte)) : list (Result (list byte)) :=
  imap (fun i chunk =>
          if bool_decide (i = 0%nat)
          then getInputSignature_command (Some ledgerInput) (Some hsdInput) (Some chunk) true
          else getInputSignature_command None None (Some chunk) false)
       chunks.

(** What the device answers to the [i]-th of [packets] (counted from
    zero), written one after the other onto [wire]. *)
Definition reply (wire : Wire) (packets : list (list byte)) (i : nat) : Result (list byte) :=
  device (wire ++ take (S i) packets).


(** The [i]-th answer is a success acknowledgement. *)
Definition acknowledged (wire : Wire) (packets : list (list byte)) (i : nat) : bool :=
  match reply wire packets i with
  | Ok res => bool_decide (apdu.statusWord res = Some apdu.SUCCESS) && (length res =? 2)%nat
  | Throw _ => false
  end.

(** The [i]-th answer ends in the status word [sw], which is not SUCCESS. *)
Definition refused (wire : Wire) (packets : list (list byte)) (i : nat) (sw : Z) : bool :=
  match reply wire packets i with
  | Ok res => bool_decide (apdu.statusWord res = Some sw) && negb (sw =? apdu.SUCCESS)
  | Throw _ => false
  end.

End Engine.

End Client.

(** ** Reachable inputs *)

Module Lifecycle.
Import hsd Input.

(** The calls a holder of a [LedgerInput] can make on it. *)
Inductive Call : Type :=
| CallFromOptions (options : option Options)
| CallToKey
| CallGetOutpoint
| CallGetPrev
| CallGetPrevRedeem
| CallGetCoin
| CallGetRing (network : Network)
| CallRefresh.

Section Reachable.
Context `{Externals}.

(** The object after a call, whether the call returned or threw. *)
Definition after (c : Call) (this : LedgerInput) : LedgerInput :=
  match c with
  | CallFromOptions options => snd (fromOptions options this)
  | CallToKey => snd (toKey this)
  | CallGetOutpoint => snd (getOutpoint this)
  | CallGetPrev => snd (getPrev this)
  | CallGetPrevRedeem => snd (getPrevRedeem this)
  | CallGetCoin => snd (getCoin this)
  | CallGetRing network => snd (getRing network this)
  | CallRefresh => snd (refresh this)
  end.

(** Every object the class can produce: a new one, then any calls. *)
Inductive reachable : LedgerInput -> Prop :=
| reachable_new : reachable fresh
| reachable_call c this : reachable this -> reachable (after c this).

(** A ring that [getRing] built: what [KeyRing.fromPublic] returned for
    some key, with or without a redeem script attached. *)
Definition built (ring : KeyRing) : Prop :=
  exists key network ring0,
    fromPublic key network = Ok ring0 /\
    (ring = ring0 \/ exists r, ring = set_ring_script ring0 r).

(** The script [getPrev] synthesises from a ring. *)
Definition pubkeyhashScript (ring : KeyRing) : Script :=
  fromPubkeyhash (getKeyHash ring).

(** What every reachable object satisfies: no [script] property; a ring
    only beside a public key, and only one [getRing] built; a memoized
    previous script only as the template over the memoized ring; a memoized
    previous-redeem script only beside a coin and, when the coin is not
    script-hash, only beside a public key and as the template over a ring
    [getRing] built. *)
Definition coherent (this : LedgerInput) : Prop :=
  script this = None /\
  (publicKey this = None -> _ring this = None) /\
  (forall ring, _ring this = Some ring -> built ring) /\
  (forall prev, _prev this = Some prev ->
     exists ring, _ring this = Some ring /\ prev = pubkeyhashScript ring) /\
  (forall v, _prevred this = Some v ->
     exists c, coin this = Some c /\
       (isScripthash (coin_address c) = false ->
        is_Some (publicKey this) /\
        exists ring, built ring /\ v = pubkeyhashScript ring)).

(** What [fromOptions] can do to the fields [coherent] speaks of: the
    caches and [script] stay, a coin is only ever filled in, a public key
    only ever set. *)
Definition configured (this this' : LedgerInput) : Prop :=
  script this' = script this /\
  _ring this' = _ring this /\
  _prev this' = _prev this /\
  _prevred this' = _prevred this /\
  (coin this' = coin this \/ coin this = None) /\
  (publicKey this' = publicKey this \/ is_Some (publicKey this')).

End Reachable.

End Lifecycle.

(** ** Sample data: stand-ins for the external functions, on which the
    model can be run *)

Module Sample.
Import hsd Input bufio.

(** Stand-ins: every key is accepted, the key hash is the first twenty
    bytes of the key, and the script template wraps the hash. *)
#[local] Instance externals : Externals := {|
  fromPublic key network := Ok (mkKeyRing key network None);
  getKeyHash ring := take 20 (ring_publicKey ring);
  fromPubkeyhash hash := mkScript ([x76; xc0; x14] ++ hash ++ [x88; xac]);
  outpointKey o := "outpoint";
  parsePath s := Ok [44; 5353; 0; 0; 0]
|}.

#[local] Program Instance writable_outpoint : Writable Outpoint := {|
  encode o := take 32 (prevout_hash o ++ replicate 32 x00) ++ u32 (prevout_index o);
  size_of o := 36%nat
|}.
Next Obligation.
  intros o. cbv beta.
  rewrite length_app, length_take, length_app, length_replicate.
  change (length (u32 (prevout_index o))) with 4%nat. lia.
Qed.

#[local] Program Instance writable_address : Writable Address := {|
  encode a := u8 (addr_version a) ++ u8 (Z.of_nat (length (addr_hash a))) ++ addr_hash a;
  size_of a := (2 + length (addr_hash a))%nat
|}.
Next Obligation. intros a. reflexivity. Qed.

#[local] Program Instance writable_covenant : Writable Covenant := {|
  encode c := u8 (covenant_type c) ++ varint (Z.of_nat (length (covenant_items c)))
              ++ concat (map (fun item => u8 (Z.of_nat (length item)) ++ take 252 item)
                             (covenant_items c));
  size_of c := length (u8 (covenant_type c) ++ varint (Z.of_nat (length (covenant_items c)))
              ++ concat (map (fun item => u8 (Z.of_nat (length item)) ++ take 252 item)
                             (covenant_items c)))
|}.
Next Obligation. intros c. reflexivity. Qed.

Definition key1 : list byte := [x02; x11; x22; x33].

Definition pubkeyhash_address : Address :=
  {| addr_version := 0; addr_hash := replicate 20 x01 |}.

Definition scripthash_address : Address :=
  {| addr_version := 0; addr_hash := replicate 32 x02 |}.

Definition coin_at (a : Address) : Coin :=
  {| coin_value := 1000; coin_address := a;
     coin_hash := replicate 32 x07; coin_index := 1 |}.

Definition redeem_script : Script := mkScript [x51; x52; xae].
Definition other_redeem_script : Script := mkScript [x52; x53; xae].

(** Options for a pay-to-public-key-hash coin. *)
Definition options_with_type (t : option Z) : Options :=
  {| opt_path := Some (PathArray [44; 5353; 0; 0; 0]);
     opt_coin := Some (coin_at pubkeyhash_address);
     opt_redeem := None;
     opt_publicKey := Some (KeyBuffer key1);
     opt_type := t |}.

(** Options for a pay-to-public-key-hash coin, without a public key. *)
Definition options_without_key : Options :=
  {| opt_path := Some (PathArray [44; 5353; 0; 0; 0]);
     opt_coin := Some (coin_at pubkeyhash_address);
     opt_redeem := None;
     opt_publicKey := None;
     opt_type := None |}.

(** Options for a script-hash coin. *)
Definition options_scripthash (r : option RedeemValue) : Options :=
  {| opt_path := Some (PathArray [44; 5353; 0; 0; 0]);
     opt_coin := Some (coin_at scripthash_address);
     opt_redeem := r;
     opt_publicKey := Some (KeyBuffer key1);
     opt_type := None |}.

(** A transaction with one input and two outputs. *)
Definition mtx : MTX :=
  {| version := 0; locktime := 0;
     inputs := [ {| prevout := {| prevout_hash := replicate 32 x07; prevout_index := 1 |};
                    sequence := 0xffffffff |} ];
     outputs := [ {| value := 600; address := pubkeyhash_address;
                     covenant := {| covenant_type := 0; covenant_items := [] |} |};
                  {| value := 399; address := scripthash_address;
                     covenant := {| covenant_type := 0; covenant_items := [] |} |} ] |}.

(** A command encoder: one tag byte, then the chunk. *)
Definition tx_command (data : option (list byte)) (first : bool) : Result (list byte) :=
  Ok ((if first then x01 else x00) :: default [] data).

Definition sig_command (ledgerInput : option LedgerInput) (input : option Input)
    (data : option (list byte)) (first : bool) : Result (list byte) :=
  Ok ((if first then x01 else x00) :: default [] data).

(** A response parser: the payload in front of a successful status word;
    an acknowledgement has no payload. *)
Definition sig_response (res : list byte) (more : bool) : Result (list byte) :=
  match apdu.statusWord res with
  | Some sw =>
    if sw =? apdu.SUCCESS
    then let data := take (length res - 2) res in
         if more && negb (length data =? 0)%nat
         then Throw (LedgerError "Unexpected data" None)
         else Ok data
    else Throw (common.errorOfStatus sw)
  | None => Throw (LedgerError "Invalid response length" None)
  end.

(** A device that acknowledges every request but the [k]-th (counted from
    zero), which it answers with the status word [sw]. *)
Definition device_failing_at (k : nat) (sw : list byte) (wire : list (list byte))
  : Result (list byte) :=
  if (length wire =? S k)%nat then Ok sw else Ok [x90; x00].

(** A device that acknowledges every request but the [n]-th (counted from
    one), which it answers with a signature. *)
Definition device_signing_at (n : nat) (signature : list byte) (wire : list (list byte))
  : Result (list byte) :=
  if (length wire =? n)%nat then Ok (signature ++ [x90; x00]) else Ok [x90; x00].

(** The input built from the options for a pay-to-public-key-hash coin. *)
Definition ledger_input : LedgerInput :=
  match static_fromOptions (Some (options_with_type None)) with
  | Ok this => this
  | Throw _ => fresh
  end.

(** The same input once [getPrevRedeem] has run on it. *)
Definition ledger_input_used : LedgerInput := snd (getPrevRedeem ledger_input).

(** Its previous script. *)
Definition prev_script : Script :=
  mkScript ([x76; xc0; x14] ++ key1 ++ [x88; xac]).

(** A script-hash input: as built, after [getPrevRedeem], after its
    redeem script was then replaced through [fromOptions], and after
    [refresh] was called at last. *)
Definition scripthash_input : LedgerInput :=
  match static_fromOptions (Some (options_scripthash (Some (RedeemScript redeem_script)))) with
  | Ok this => this
  | Throw _ => fresh
  end.

Definition scripthash_input_used : LedgerInput := snd (getPrevRedeem scripthash_input).

Definition scripthash_input_changed : LedgerInput :=
  snd (fromOptions (Some (options_scripthash (Some (RedeemScript other_redeem_script))))
                   scripthash_input_used).

Definition scripthash_input_reset : LedgerInput := snd (refresh scripthash_input_changed).

Definition hsd_input : Input :=
  {| prevout := {| prevout_hash := replicate 32 x07; prevout_index := 1 |};
     sequence := 0xffffffff |}.

Definition signature : list byte := [x30; x44; x02; x20; xab; xcd].

(** The commands for the chunks of the sample transaction, cut at 50
    bytes, and for the chunks of the previous script, cut at 4 bytes. *)
Definition tx_packets : list (list byte) :=
  imap (fun i chunk => (if bool_decide (i = 0%nat) then x01 else x00) :: chunk)
       (util.splitBuffer (Client.preambleLayout mtx) 50).

Definition sig_packets : list (list byte) :=
  imap (fun i chunk => (if bool_decide (i = 0%nat) then x01 else x00) :: chunk)
       (util.splitBuffer (varBytes prev_script) 4).

End Sample.

(** ** lib/apdu/common.js: the constants beside the status table *)

Module common_constants.
Import common.

Definition CHANNEL_ID : Z := 0x0101.
Definition TAG_APDU : Z := 0x05.
Definition TAG_PING : Z := 0x02.
Definition MAX_BYTES : Z := 64.
Definition EMPTY : list byte := [].

Definition cla : gmap string Z := object [
  ("GENERAL", 0xe0);
  ("VENDOR", 0xd0)
].

Definition ins : gmap string Z := object [
  ("GET_APP_VERSION", 0x40);
  ("GET_PUBLIC_KEY", 0x42);
  ("GET_INPUT_SIGNATURE", 0x44)
].

(** No two names of a table stand for the same number. *)
Definition injective (table : gmap string Z) : Prop :=
  forall name1 name2 code,
    table !! name1 = Some code -> table !! name2 = Some code -> name1 = name2.

(** Every number of a table fits below [bound]. *)
Definition below (bound : Z) (table : gmap string Z) : Prop :=
  forall name code, table !! name = Some code -> 0 <= code < bound.

End common_constants.

(** ** lib/ledger/input.js: what the statements about the whole class name *)

Module Input_more.
Import hsd Input Lifecycle.

Section Vocabulary.
Context `{Externals}.

(** The outpoint [getOutpoint] makes of a coin. *)
Definition outpointOf (c : Coin) : Outpoint :=
  {| prevout_hash := coin_hash c; prevout_index := coin_index c |}.

(** The public key an options object carries, if it carries one. *)
Definition key_given (o : Options) : option (list byte) :=
  match opt_publicKey o with
  | Some (KeyBuffer data) => Some data
  | _ => None
  end.

(** The redeem property, when present, is a Buffer or a script. *)
Definition redeem_accepted (o : Options) : bool :=
  match opt_redeem o with
  | Some RedeemOther => false
  | _ => true
  end.

(** There is a coin, and a redeem script beside a script-hash coin. *)
Definition coin_accepted (o : Options) : bool :=
  match opt_coin o with
  | Some c =>
    negb (isScripthash (coin_address c)) || bool_decide (is_Some (redeem_given o))
  | None => false
  end.

(** Every check of [fromOptions] on a new object. *)
Definition accepted (o : Options) : bool :=
  others_accepted o && redeem_accepted o && coin_accepted o.

(** The object after a sequence of calls, the first of the list first. *)
Definition after_all (calls : list Call) (this : LedgerInput) : LedgerInput :=
  foldl (fun this c => after c this) this calls.

(** The memoized outpoint and key, when there are any, are those of the
    coin. *)
Definition located (this : LedgerInput) : Prop :=
  (forall o, _outpoint this = Some o ->
     exists c, coin this = Some c /\ o = outpointOf c) /\
  (_key this <> "" ->
     exists c, coin this = Some c /\ _key this = outpointKey (outpointOf c)).

End Vocabulary.

End Input_more.

(** ** lib/ledger/client.js: the two queries *)

Module Client_queries.
Import hsd Input Client.

(** The options of [getPublicKey]; a property left out is [None]. *)
Record KeyOptions : Type := mkKeyOptions {
  opt_confirm : option Z;
  opt_xpub : option bool;
  opt_address : option bool;
  opt_network : option Network
}.

(** [Object.create(null)] *)
Definition no_options : KeyOptions :=
  {| opt_confirm := None; opt_xpub := None; opt_address := None; opt_network := None |}.

(** [options.network = type] *)
Definition set_network (type : Network) (options : KeyOptions) : KeyOptions :=
  {| opt_confirm := opt_confirm options;
     opt_xpub := opt_xpub options;
     opt_address := opt_address options;
     opt_network := Some type |}.

(** What a query runs on: the options object the caller passed, which the
    method writes to ([None] when the caller passed none), and the wire. *)
Definition Call : Type := option KeyOptions * Wire.

Section Queries.
Context `{Externals}.
(** [this.network.type] *)
Variable network : Network.
(** [APDUCommand.getAppVersion().toRaw()] *)
Variable getAppVersion_command : list byte.
(** [APDUResponse.getAppVersion(buf).data] *)
Variable getAppVersion_response : list byte -> Result string.
(** [APDUCommand.getPublicKey(path, options).toRaw()] *)
Variable getPublicKey_command : list Z -> KeyOptions -> Result (list byte).
(** [APDUResponse.getPublicKey(buf).data] *)
Variable KeyData : Type.
Variable getPublicKey_response : list byte -> Result KeyData.
Variable device : Wire -> Result (list byte).

Local Open Scope js_scope.

(** [getAppVersion()] *)
Definition getAppVersion : M Wire string :=
  buf <- exchange device getAppVersion_command;;
  lift (getAppVersion_response buf).

Definition on_caller_wire {A} (m : M Wire A) : M Call A :=
  fun st => let '(r, wire) := m st.2 in (r, (st.1, wire)).

(** Lines 76-79 of getPublicKey: the indices the method goes on with, or
    what it throws over the path. *)
Definition path_indices (path : PathValue) : Result (list Z) :=
  match path with
  | PathString s => parsePath s
  | PathArray p => Ok p
  | PathOther => Throw (AssertionError "path must be a String or Array")
  end.

(** [getPublicKey(path, options)] *)
Definition getPublicKey (path : PathValue) : M Call KeyData :=
  path <- match path with
          | PathString s => p <- lift (parsePath s);; ret (PathArray p)
          | other => ret other
          end;;
  path <- match path with
          | PathArray p => ret p
          | _ => throw (AssertionError "path must be a String or Array")
          end;;
  given <- gets fst;;
  let options := default no_options given in
  let options := set_network network options in
  modify (fun st => (match given with Some _ => Some options | None => None end, st.2));;;
  packet <- lift (getPublicKey_command path options);;
  buf <- on_caller_wire (exchange device packet);;
  lift (getPublicKey_response buf).

End Queries.

End Client_queries.

(** ** lib/ledger/client.js: the outcome of a round trip *)

Module Client_more.
Import hsd Input Client.

Section Vocabulary.
Variable getInputSignature_response : list byte -> bool -> Result (list byte).
Variable device : Wire -> Result (list byte).

(** How the [i]-th round trip of [parseTX] ends: with the device's
    failure, or with what the response parses to. *)
Definition acknowledgement (wire : Wire) (packets : list (list byte)) (i : nat)
  : Result unit :=
  match reply device wire packets i with
  | Ok res => apdu.parseTX_response res
  | Throw e => Throw e
  end.

(** How the [i]-th round trip of [getInputSignature] ends when its
    response is read with [more]. *)
Definition signature_reply (more : bool) (wire : Wire) (packets : list (list byte))
    (i : nat) : Result (list byte) :=
  match reply device wire packets i with
  | Ok res => getInputSignature_response res more
  | Throw e => Throw e
  end.

End Vocabulary.

End Client_more.

(** ** bin/hsd-ledger: the two computations of the command line tool *)

Module cli.
Import hsd.

(** What the tool throws: an error of the libraries it calls, or a plain
    [new Error(message)]. *)
Inductive Thrown : Type :=
| Raised (e : Error)
| PlainError (message : string).

Inductive Outcome (A : Type) : Type :=
| Returned (a : A)
| Threw (t : Thrown).
Arguments Returned {A} a.
Arguments Threw {A} t.

(** [hd.common.HARDENED] *)
Definition HARDENED : Z := 0x80000000.

(** The conversions JavaScript applies around [^] and [>>> 0]. *)
Definition toInt32 (n : Z) : Z :=
  let m := n mod 2 ^ 32 in
  if m <? 2 ^ 31 then m else m - 2 ^ 32.

Definition toUint32 (n : Z) : Z := n mod 2 ^ 32.

(** [(xpub.childIndex ^ hd.common.HARDENED) >>> 0] of createAddress *)
Definition accountOf (childIndex : Z) : Z :=
  toUint32 (Z.lxor (toInt32 childIndex) (toInt32 HARDENED)).

(** The key the wallet returns for an address. *)
Record WalletKey : Type := mkWalletKey {
  key_account : Z;
  key_branch : Z;
  key_index : Z
}.

(** [key && key.branch] *)
Definition has_branch (key : option WalletKey) : bool :=
  match key with
  | Some k => negb (key_branch k =? 0)
  | None => false
  end.

Section ChangeOutput.
(** [await wclient.getKey(id, output.address.toString(network.type))] *)
Variable getKey : Address -> Outcome (option WalletKey).

(** The loop of sendToAddress, entered with [i = n - 1]: it leaves the
    index it stopped at ([-1] when it ran out) and the key fetched last. *)
Fixpoint scan (outputs : list Output) (n : nat) (key : option WalletKey)
  : Outcome (Z * option WalletKey) :=
  match n with
  | O => Returned (-1, key)
  | S i =>
    match outputs !! i with
    | Some output =>
      match getKey (address output) with
      | Returned key =>
        if has_branch key then Returned (Z.of_nat i, key) else scan outputs i key
      | Threw t => Threw t
      end
    | None => Threw (Raised (TypeError "Cannot read properties of undefined"))
    end
  end.

(** Lines 95-105 of sendToAddress: the index of the change output and its
    key. *)
Definition findChange (mtx : MTX) : Outcome (Z * WalletKey) :=
  match scan (outputs mtx) (length (outputs mtx)) None with
  | Returned (i, key) =>
    match key with
    | Some k =>
      if has_branch key then Returned (i, k)
      else Threw (PlainError "Expected change address.")
    | None => Threw (PlainError "Expected change address.")
    end
  | Threw t => Threw t
  end.

End ChangeOutput.

End cli.

(** ** More sample data *)

Module Sample_more.
Import hsd Input Lifecycle.

Definition key2 : list byte := [x03; xaa; xbb; xcc].

(** Options that replace the path and the public key of an input. *)
Definition options_other_key : Options :=
  {| opt_path := Some (PathArray [44; 5353; 1; 0; 7]);
     opt_coin := None;
     opt_redeem := None;
     opt_publicKey := Some (KeyBuffer key2);
     opt_type := None |}.

(** Options whose sighash type the assertion turns down. *)
Definition options_rejected : Options :=
  {| opt_path := Some (PathArray [44; 5353; 9; 9; 9]);
     opt_coin := None;
     opt_redeem := None;
     opt_publicKey := None;
     opt_type := Some ALL |}.

(** The sample input with its ring memoized. *)
Definition ledger_input_ringed : LedgerInput :=
  snd (getRing (H := Sample.externals) testnet Sample.ledger_input).

(** A run of calls on an input. *)
Definition calls : list Call :=
  [CallGetPrevRedeem; CallFromOptions (Some options_other_key); CallToKey;
   CallRefresh; CallFromOptions (Some options_rejected); CallGetRing regtest].

(** An input left behind by a call of [fromOptions] that threw over the
    missing redeem script of its script-hash coin. *)
Definition scripthash_input_bare : LedgerInput :=
  snd (fromOptions (H := Sample.externals) (Some (Sample.options_scripthash None)) fresh).

(** An input built without a public key. *)
Definition ledger_input_keyless : LedgerInput :=
  after (H := Sample.externals) (CallFromOptions (Some Sample.options_without_key)) fresh.

(** A command encoder that turns every chunk down. *)
Definition tx_command_refusing (data : option (list byte)) (first : bool)
  : Result (list byte) :=
  Throw (AssertionError "data must be a Buffer").

(** Stand-ins for the public key query: the command names the depth of the
    path and the network it is for, the response is the payload in front of
    the status word. *)
Definition key_command (path : list Z) (options : Client_queries.KeyOptions)
  : Result (list byte) :=
  if (length path <=? common.MAX_DEPTH)%nat
  then Ok [x42; bufio.byte_of_Z (Z.of_nat (length path));
           match Client_queries.opt_network options with
           | Some main => x00 | Some testnet => x01 | Some regtest => x02
           | _ => xff
           end]
  else Throw (AssertionError "path is too long").

Definition key_response (buf : list byte) : Result (list byte) :=
  Ok (take (length buf - 2) buf).

Definition key_options : Client_queries.KeyOptions :=
  {| Client_queries.opt_confirm := Some 1;
     Client_queries.opt_xpub := None;
     Client_queries.opt_address := Some true;
     Client_queries.opt_network := Some regtest |}.

(** A wallet that knows the addresses of the sample transaction as
    receive addresses only, and one that fails for script-hash addresses
    and takes every other address for a change address. *)
Definition wallet (a : Address) : cli.Outcome (option cli.WalletKey) :=
  if isScripthash a then cli.Returned None
  else cli.Returned (Some {| cli.key_account := 0; cli.key_branch := 0;
                             cli.key_index := 3 |}).

Definition wallet_failing (a : Address) : cli.Outcome (option cli.WalletKey) :=
  if isScripthash a then cli.Threw (cli.PlainError "Status code: 500.")
  else cli.Returned (Some {| cli.key_account := 0; cli.key_branch := 1;
                             cli.key_index := 3 |}).

End Sample_more.


(** * Properties *)

(** ** The status table *)

Module common_spec.
Import common.

Lemma names_exactly_unique code name other :
  names_exactly code name -> status !! other = Some code -> other = name.
Proof. intros [_ Hall] Hother. exact (Hall other code Hother eq_refl). Qed.

Ltac table_entry :=
  repeat split;
  first [ by vm_compute
        | apply (bool_decide_unpack _); by vm_compute ].

(** C4: the user-rejection word 0x6985, the file-not-found word 0x6a82 and
    the instruction-not-supported word 0x6d00 each carry, in the static
    tables, exactly their documented name and their documented message, and
    none of the three messages is the unknown-status fallback. *)
Theorem representative_status_words_documented :
  documented 0x6985 "CONDITIONS_OF_USE_NOT_SATISFIED"
             "User rejected on-screen confirmation" /\
  documented 0x6a82 "FILE_NOT_FOUND" "File not found" /\
  documented 0x6d00 "INS_NOT_SUPPORTED"
             "Instruction not supported (check app on the device)".
Proof. unfold documented, names_exactly. table_entry. Qed.

(** With the reversed table and the error constructor as the spec words
    them, the three words give their own errors. *)
Lemma representative_status_words_errors :
  statusByVal !! 0x6985 = Some "CONDITIONS_OF_USE_NOT_SATISFIED" /\
  statusByVal !! 0x6a82 = Some "FILE_NOT_FOUND" /\
  statusByVal !! 0x6d00 = Some "INS_NOT_SUPPORTED" /\
  errorOfStatus 0x6985 = LedgerError "User rejected on-screen confirmation" (Some 0x6985) /\
  errorOfStatus 0x6a82 = LedgerError "File not found" (Some 0x6a82) /\
  errorOfStatus 0x6d00 =
    LedgerError "Instruction not supported (check app on the device)" (Some 0x6d00) /\
  errorOfStatus 0x1234 = LedgerError "Unknown status code" (Some 0x1234).
Proof. repeat split; by vm_compute. Qed.

(** No two names of the table share a status word. *)
Lemma status_codes_distinct :
  map_Forall (fun k v => map_Forall (fun k' v' => v = v' -> k = k') status) status.
Proof. apply (bool_decide_unpack _). by vm_compute. Qed.

End common_spec.

(** ** The signing input *)

Module Input_spec.
Import hsd Input.

(** Run the monad's operations on the state at hand. *)
Ltac js_unfold :=
  unfold Js.bind, Js.ret, Js.throw, Js.get, Js.gets, Js.modify, Js.assert, Js.lift in *.

Ltac js_run := js_unfold; cbn beta iota zeta in *.

(** The shapes of path, sighash type and public key, with [rejected]
    closing the goal on the shapes that [fromOptions] turns down. *)
Ltac accepted_cases opath otype okey rejected :=
  destruct opath as [[?s| |]|]; try rejected;
  [destruct (String.eqb s ""); try rejected;
   js_run; simpl in *; destruct (parsePath s); try rejected|];
  (destruct otype as [?t|]; [destruct (t =? ALL); try rejected|]);
  (destruct okey as [[]|]; try rejected).

Section WithExternals.
Context `{Externals}.

(** C1: on an options object with an array path, a sighash type equal to
    SIGHASH_ALL makes construction throw the assertion worded
    [Ledger only supports SIGHASH_ALL], and whenever construction succeeds
    with a type given, that type is not SIGHASH_ALL and is the one stored:
    the test is the reverse of its message. *)
Theorem fromOptions_sighash_check_reversed (o : Options) (p : list Z) :
  opt_path o = Some (PathArray p) ->
  (opt_type o = Some ALL ->
   static_fromOptions (Some o) =
   Throw (AssertionError "Ledger only supports SIGHASH_ALL")) /\
  (forall t this,
     opt_type o = Some t ->
     static_fromOptions (Some o) = Ok this ->
     t <> ALL /\ type this = t).
Proof.
  intros Hp. unfold static_fromOptions, fromOptions. rewrite Hp.
  split.
  - intros Ht. rewrite Ht. reflexivity.
  - intros t this Ht. rewrite Ht.
    destruct (Z.eqb_spec t ALL) as [->|Hne]; [discriminate|].
    intros Hrun. split; [assumption|]. revert Hrun.
    destruct o as [opath ocoin oredeem okey otype]; simpl in *.
    destruct oredeem as [[]|], ocoin as [c|], okey as [[]|];
      unfold this_coin; js_run; simpl; try discriminate;
      destruct (isScripthash (coin_address c)); simpl;
      intros; simplify_eq; reflexivity.
Qed.

(** X28: for a script-hash coin, construction without a redeem script
    always fails, and with the error worded
    [Cannot sign ScriptHash without redeem.] whenever the checks on the
    other properties pass as the code writes them (a sighash type, when
    given, other than SIGHASH_ALL); with a redeem script and those checks
    passing, construction succeeds and stores the script and the coin. *)
Theorem fromOptions_scripthash_needs_redeem (o : Options) (c : Coin) :
  opt_coin o = Some c ->
  isScripthash (coin_address c) = true ->
  (opt_redeem o = None ->
   is_ok (static_fromOptions (Some o)) = false /\
   (others_accepted o = true ->
    static_fromOptions (Some o) =
    Throw (AssertionError "Cannot sign ScriptHash without redeem."))) /\
  (forall r,
     redeem_given o = Some r ->
     others_accepted o = true ->
     exists this,
       static_fromOptions (Some o) = Ok this /\
       redeem this = Some r /\ coin this = Some c).
Proof.
  intros Hc Hsh.
  unfold static_fromOptions, fromOptions, others_accepted, path_accepted,
    type_accepted, key_accepted, redeem_given, path_given, this_coin.
  destruct o as [opath ocoin oredeem okey otype]; simpl in *. subst ocoin.
  split.
  - intros ->. split.
    + accepted_cases opath otype okey ltac:(reflexivity);
        js_run; simpl; rewrite Hsh; reflexivity.
    + intros Hok.
      accepted_cases opath otype okey ltac:(discriminate);
        js_run; simpl; rewrite Hsh; reflexivity.
  - intros r Hr Hok.
    accepted_cases opath otype okey ltac:(discriminate);
      (destruct oredeem as [[]|]; try discriminate);
      js_run; simpl; rewrite Hsh; simpl;
      eexists; (split; [reflexivity|]); simpl; split; congruence.
Qed.

(** [refresh] leaves the memoized previous-redeem script where it is. *)
Lemma refresh_prevred (this : LedgerInput) :
  _prevred (snd (refresh this)) = _prevred this.
Proof. reflexivity. Qed.

Lemma getPrevRedeem_memoized (this : LedgerInput) (v : Script) :
  _prevred this = Some v -> getPrevRedeem this = (Ok (Some v), this).
Proof. intros Hv. unfold getPrevRedeem. js_run. rewrite Hv. reflexivity. Qed.

Lemma getRing_memoized (this : LedgerInput) (key : list byte) (ring : KeyRing)
    (network : Network) :
  publicKey this = Some key -> _ring this = Some ring ->
  getRing network this = (Ok ring, this).
Proof. intros Hk Hr. unfold getRing. js_run. rewrite Hk, Hr. reflexivity. Qed.

Lemma set__ring_same (this : LedgerInput) (ring : KeyRing) :
  _ring this = Some ring -> set__ring (Some ring) this = this.
Proof. destruct this; simpl; intros ->; reflexivity. Qed.

(** C8: without a public key [getRing] throws the LedgerError worded
    [Cannot return ring without public key] and leaves the object as it
    is, memoized ring or not.  With a public key and nothing memoized the
    call is decided by [KeyRing.fromPublic] on that key: when it makes a
    ring, [getRing] returns that ring with its [script] set to the redeem
    script when there is one (and as [fromPublic] left it otherwise),
    memoizes it, and every later call, for any network, returns that same
    ring and changes nothing; when it throws, [getRing] throws the same and
    memoizes nothing.  With a ring memoized beside a public key every call
    returns it. *)
Theorem getRing_builds_once (this : LedgerInput) (network : Network) :
  (publicKey this = None ->
   getRing network this =
   (Throw (LedgerError "Cannot return ring without public key" None), this)) /\
  (forall key,
     publicKey this = Some key -> _ring this = None ->
     match fromPublic key network with
     | Ok ring0 =>
       let ring := {| ring_publicKey := ring_publicKey ring0;
                      ring_network := ring_network ring0;
                      ring_script := match redeem this with
                                     | Some r => Some r
                                     | None => ring_script ring0
                                     end |} in
       getRing network this = (Ok ring, set__ring (Some ring) this) /\
       forall network',
         getRing network' (set__ring (Some ring) this) =
         (Ok ring, set__ring (Some ring) this)
     | Throw e => getRing network this = (Throw e, this)
     end) /\
  (forall key ring,
     publicKey this = Some key -> _ring this = Some ring ->
     forall network', getRing network' this = (Ok ring, this)).
Proof.
  split; [|split].
  - intros Hk. unfold getRing. js_run. rewrite Hk. reflexivity.
  - intros key Hk Hr.
    destruct (fromPublic key network) as [ring0|e] eqn:Hfp; cbv zeta.
    + split.
      * unfold getRing, set_ring_script. js_run. rewrite Hk, Hr, Hfp.
        destruct (redeem this); [reflexivity|]. destruct ring0; reflexivity.
      * intros network'. eapply getRing_memoized; [|reflexivity]. exact Hk.
    + unfold getRing. js_run. rewrite Hk, Hr, Hfp. reflexivity.
  - intros key ring Hk Hr network'. by eapply getRing_memoized.
Qed.

(** X27: with nothing memoized, [getPrevRedeem] on a script-hash coin
    returns the redeem script and memoizes it; on any other coin it does
    what [getPrev] does, returning the script [getPrev] returns (which
    [getPrev] goes on returning) or throwing what it throws; and whatever a
    call returned, the next call returns again, leaving the object as it
    is. *)
Theorem getPrevRedeem_redeem_or_prev (this : LedgerInput) (c : Coin) :
  coin this = Some c ->
  (_prevred this = None ->
   if isScripthash (coin_address c)
   then getPrevRedeem this = (Ok (redeem this), set__prevred (redeem this) this)
   else match getPrev this with
        | (Ok prev, this') =>
          getPrevRedeem this = (Ok (Some prev), set__prevred (Some prev) this') /\
          getPrev (set__prevred (Some prev) this') =
          (Ok prev, set__prevred (Some prev) this')
        | (Throw e, this') => getPrevRedeem this = (Throw e, this')
        end) /\
  (forall v this',
     getPrevRedeem this = (Ok v, this') ->
     getPrevRedeem this' = (Ok v, this')).
Proof.
  intros Hc. split.
  - intros Hmemo. unfold getPrevRedeem, this_coin. js_run. rewrite Hmemo, Hc.
    destruct (isScripthash (coin_address c)); [reflexivity|].
    destruct (getPrev this) as [[prev|e] this'] eqn:Hprev; [|reflexivity].
    split; [reflexivity|].
    assert (Hp : _prev this' = Some prev).
    { revert Hprev. unfold getPrev, getRing. js_run.
      repeat case_match; intros; simplify_eq; done. }
    unfold getPrev. js_run. simpl. rewrite Hp. reflexivity.
  - intros v this'. unfold getPrevRedeem at 1. unfold this_coin. js_run.
    destruct (_prevred this) as [memo|] eqn:Hmemo.
    + intros; simplify_eq. by apply getPrevRedeem_memoized.
    + rewrite Hc. destruct (isScripthash (coin_address c)) eqn:Hsh.
      * simpl. intros; simplify_eq.
        destruct (redeem this) as [r|] eqn:Hr.
        -- by apply getPrevRedeem_memoized.
        -- assert (Hsame : set__prevred None this = this)
             by (destruct this; simpl in *; unfold set__prevred; simpl; subst; reflexivity).
           rewrite Hsame. unfold getPrevRedeem, this_coin. js_run.
           rewrite Hmemo, Hc, Hsh. simpl. rewrite Hr, Hsame. reflexivity.
      * destruct (getPrev this) as [[prev|e] this1]; [|discriminate].
        simpl. intros; simplify_eq. by apply getPrevRedeem_memoized.
Qed.

(** C7: for a script-hash coin, an array path and any public key: while
    no sighash type is given, construction without a redeem script throws
    the assertion worded [Cannot sign ScriptHash without redeem.] and with
    one it succeeds, storing the script, the coin and SIGHASH_ALL; with the
    type SIGHASH_ALL given, the only type the class is meant to take,
    construction throws [Ledger only supports SIGHASH_ALL] both with and
    without the redeem script. *)
Theorem fromOptions_scripthash_redeem_refused_with_ALL (p : list Z) (c : Coin)
    (r : Script) (key : option (list byte)) :
  isScripthash (coin_address c) = true ->
  let options redeem type :=
    {| opt_path := Some (PathArray p); opt_coin := Some c; opt_redeem := redeem;
       opt_publicKey := KeyBuffer <$> key; opt_type := type |} in
  static_fromOptions (Some (options (Some (RedeemScript r)) (Some ALL))) =
  Throw (AssertionError "Ledger only supports SIGHASH_ALL") /\
  static_fromOptions (Some (options None (Some ALL))) =
  Throw (AssertionError "Ledger only supports SIGHASH_ALL") /\
  (exists this,
     static_fromOptions (Some (options (Some (RedeemScript r)) None)) = Ok this /\
     redeem this = Some r /\ coin this = Some c /\ type this = ALL) /\
  static_fromOptions (Some (options None None)) =
  Throw (AssertionError "Cannot sign ScriptHash without redeem.").
Proof.
  intros Hsh options. unfold options, static_fromOptions, fromOptions, this_coin.
  split; [reflexivity|]. split; [reflexivity|]. split.
  - destruct key; js_run; simpl; rewrite Hsh; simpl;
      eexists; (split; [reflexivity|]); simpl; split_and!; reflexivity.
  - destruct key; js_run; simpl; rewrite Hsh; reflexivity.
Qed.

(** C9: a previous-redeem script that was handed out once outlives the
    reset: after [refresh], [getPrevRedeem] still returns it and computes
    nothing, whatever the coin and the redeem script of the object are by
    then. *)
Theorem getPrevRedeem_outlives_refresh (this : LedgerInput) (v : Script) :
  _prevred this = Some v ->
  getPrevRedeem (snd (refresh this)) = (Ok (Some v), snd (refresh this)) /\
  redeem (snd (refresh this)) = redeem this /\
  coin (snd (refresh this)) = coin this.
Proof.
  intros Hv. split; [|split; reflexivity].
  apply getPrevRedeem_memoized. by rewrite refresh_prevred.
Qed.

End WithExternals.

End Input_spec.

(** ** Reachable inputs *)

Module Lifecycle_spec.
Import hsd Input Lifecycle Input_spec.

Section WithExternals.
Context `{Externals}.

Lemma configured_refl (this : LedgerInput) : configured this this.
Proof. unfold configured; auto 10. Qed.

Lemma fromOptions_configured (options : option Options) (this : LedgerInput) :
  configured this (snd (fromOptions options this)).
Proof.
  destruct options as [o|]; [|apply configured_refl].
  unfold fromOptions, path_given, this_coin.
  destruct o as [opath ocoin oredeem okey otype]; simpl.
  destruct opath as [[s| |]|]; try apply configured_refl;
    [destruct (String.eqb s ""); try apply configured_refl;
     js_run; simpl; destruct (parsePath s); try apply configured_refl|];
    (destruct otype as [t|];
       [destruct (t =? ALL); try (unfold configured; simpl; by auto 10)|]);
    (destruct oredeem as [[]|]; try (unfold configured; simpl; by auto 10));
    js_run; simpl;
    (destruct (coin this) as [c0|] eqn:Hcoin;
       [|destruct ocoin as [c0|]; try (unfold configured; simpl; by auto 10)]);
    (destruct okey as [[]|]; try (unfold configured; simpl; by auto 10));
    simpl; rewrite ?Hcoin;
    destruct (isScripthash (coin_address c0)); simpl;
    try case_bool_decide; simpl;
    unfold configured; simpl; auto 10.
Qed.

Lemma coherent_configured (this this' : LedgerInput) :
  coherent this -> configured this this' -> coherent this'.
Proof.
  intros (Hs & Hk & Hr & Hp & Hv) (Es & Er & Ep & Ev & Ec & Ek).
  unfold coherent. rewrite Es, Er, Ep, Ev.
  split; [assumption|]. split; [|split; [assumption|split; [assumption|]]].
  - intros Hnone. destruct Ek as [Ek|[k Ek]]; [apply Hk; congruence|congruence].
  - intros v Hmemo. destruct (Hv v Hmemo) as (c & Hc & Hrest).
    destruct Ec as [Ec|Ec]; [|congruence].
    exists c. split; [congruence|].
    intros Hsh. destruct (Hrest Hsh) as [Hsome Hbuilt]. split; [|assumption].
    destruct Ek as [Ek|Ek]; [congruence|assumption].
Qed.

(** What a call of [getRing] that returns leaves behind. *)
Lemma getRing_returns (network : Network) (this this' : LedgerInput) (ring : KeyRing) :
  coherent this ->
  getRing network this = (Ok ring, this') ->
  this' = set__ring (Some ring) this /\ built ring /\ is_Some (publicKey this).
Proof.
  intros (Hs & Hk & Hr & Hp & Hv). unfold getRing. js_run.
  destruct (publicKey this) as [key|] eqn:Ekey; [|discriminate].
  destruct (_ring this) as [memo|] eqn:Ering.
  - intros; simplify_eq. split; [by rewrite set__ring_same|]. split; [by apply Hr|by eexists].
  - destruct (fromPublic key network) as [ring0|e] eqn:Efp; [|discriminate].
    intros; simplify_eq. split; [reflexivity|]. split; [|by eexists].
    exists key, network, ring0. split; [assumption|].
    destruct (redeem this); [right; by eexists|by left].
Qed.

Lemma getRing_throws (network : Network) (this this' : LedgerInput) (e : Error) :
  getRing network this = (Throw e, this') -> this' = this.
Proof.
  unfold getRing. js_run. repeat case_match; intros; simplify_eq; reflexivity.
Qed.

Lemma coherent_set__ring (this : LedgerInput) (ring : KeyRing) :
  coherent this -> built ring -> is_Some (publicKey this) ->
  (_ring this = None \/ _ring this = Some ring) ->
  coherent (set__ring (Some ring) this).
Proof.
  intros (Hs & Hk & Hr & Hp & Hv) Hb [k Hsome] Hold.
  unfold coherent; simpl. split; [assumption|]. split; [congruence|].
  split; [intros ? ?; by simplify_eq|]. split; [|assumption].
  intros prev Hprev. destruct (Hp prev Hprev) as (ring' & Hring' & ->).
  destruct Hold as [Hold|Hold]; [congruence|]. exists ring. split; congruence.
Qed.

Lemma getRing_coherent (network : Network) (this : LedgerInput) :
  coherent this -> coherent (snd (getRing network this)).
Proof.
  intros Hcoh. destruct (getRing network this) as [[ring|e] this'] eqn:Hrun; simpl.
  - destruct (getRing_returns _ _ _ _ Hcoh Hrun) as (-> & Hb & Hsome).
    apply coherent_set__ring; try assumption.
    revert Hrun. unfold getRing. js_run. repeat case_match; intros; simplify_eq; auto.
  - by rewrite (getRing_throws _ _ _ _ Hrun).
Qed.

(** What a call of [getPrev] that returns leaves behind. *)
Lemma getPrev_returns (this this' : LedgerInput) (prev : Script) :
  coherent this ->
  getPrev this = (Ok prev, this') ->
  coherent this' /\ _prev this' = Some prev /\
  _prevred this' = _prevred this /\ coin this' = coin this /\
  exists ring, built ring /\ _ring this' = Some ring /\ prev = pubkeyhashScript ring.
Proof.
  intros Hcoh. pose proof Hcoh as (Hs & Hk & Hr & Hp & Hv).
  unfold getPrev. js_run.
  destruct (_prev this) as [memo|] eqn:Eprev.
  - intros; simplify_eq. destruct (Hp _ eq_refl) as (ring & Hring & ->).
    split; [assumption|]. do 3 (split; [done|]). exists ring. auto.
  - rewrite Hs. destruct (getRing primary this) as [[ring|e] this1] eqn:Hrun; [|discriminate].
    simpl. intros; simplify_eq.
    destruct (getRing_returns _ _ _ _ Hcoh Hrun) as (-> & Hb & Hsome).
    assert (Hcoh1 : coherent (set__ring (Some ring) this)).
    { apply coherent_set__ring; try assumption.
      revert Hrun. unfold getRing. js_run. repeat case_match; intros; simplify_eq; auto. }
    split; [|do 3 (split; [done|]); exists ring; auto].
    destruct Hcoh1 as (Hs1 & Hk1 & Hr1 & Hp1 & Hv1).
    unfold coherent; simpl in *. do 3 (split; [assumption|]). split; [|assumption].
    intros prev ?; simplify_eq. by exists ring.
Qed.

Lemma getPrev_coherent (this : LedgerInput) :
  coherent this -> coherent (snd (getPrev this)).
Proof.
  intros Hcoh. destruct (getPrev this) as [[prev|e] this'] eqn:Hrun; simpl.
  - by destruct (getPrev_returns _ _ _ Hcoh Hrun).
  - revert Hrun. unfold getPrev. js_run.
    destruct (_prev this); [discriminate|].
    destruct Hcoh as (Hs & Hrest). rewrite Hs.
    destruct (getRing primary this) as [[ring|e'] this1] eqn:Hring; [discriminate|].
    intros; simplify_eq. rewrite (getRing_throws _ _ _ _ Hring). by split.
Qed.

Lemma getPrevRedeem_coherent (this : LedgerInput) :
  coherent this -> coherent (snd (getPrevRedeem this)).
Proof.
  intros Hcoh. unfold getPrevRedeem, this_coin. js_run.
  destruct (_prevred this) as [memo|] eqn:Ememo; [assumption|].
  destruct (coin this) as [c|] eqn:Ecoin; [|assumption].
  destruct (isScripthash (coin_address c)) eqn:Hsh; simpl.
  - destruct Hcoh as (Hs & Hk & Hr & Hp & Hv).
    unfold coherent; simpl. repeat split; try assumption.
    intros v Hv'. exists c. split; [assumption|]. congruence.
  - destruct (getPrev this) as [[prev|e] this1] eqn:Hrun; simpl.
    + destruct (getPrev_returns _ _ _ Hcoh Hrun)
        as ((Hs & Hk & Hr & Hp & Hv) & Eprev & Ered & Ecoin1 & ring & Hb & Hring & ->).
      unfold coherent; simpl. repeat split; try assumption.
      intros v ?; simplify_eq. exists c. split; [congruence|].
      intros _. split; [|by exists ring].
      destruct (publicKey this1) eqn:Ekey; [by eexists|]. rewrite Hk in Hring; done.
    + pose proof (getPrev_coherent this Hcoh) as Hnext. by rewrite Hrun in Hnext.
Qed.

Lemma after_coherent (c : Call) (this : LedgerInput) :
  coherent this -> coherent (after c this).
Proof.
  intros Hcoh. destruct c as [options| | | | | |network|]; simpl.
  - eapply coherent_configured; [exact Hcoh|apply fromOptions_configured].
  - eapply coherent_configured; [exact Hcoh|].
    unfold toKey, getOutpoint, this_coin. js_run.
    repeat case_match; simplify_eq/=; unfold configured; simpl; auto 10.
  - eapply coherent_configured; [exact Hcoh|].
    unfold getOutpoint, this_coin. js_run.
    repeat case_match; simplify_eq/=; unfold configured; simpl; auto 10.
  - by apply getPrev_coherent.
  - by apply getPrevRedeem_coherent.
  - assumption.
  - by apply getRing_coherent.
  - destruct Hcoh as (Hs & Hk & Hr & Hp & Hv).
    unfold coherent; simpl. repeat split; try done.
Qed.

Lemma reachable_coherent (this : LedgerInput) : reachable this -> coherent this.
Proof.
  induction 1 as [|c this Hreach IH].
  - unfold coherent; simpl. repeat split; try done.
  - by apply after_coherent.
Qed.

(** C10: on every reachable input whose coin is not script-hash there is
    no [script] property, so [getPrev] never returns an explicit script:
    it does what [getRing] does, returning the pay-to-public-key-hash
    script over the ring [getRing] returns (and memoizing it) or throwing
    what [getRing] throws; [getPrevRedeem] with nothing memoized does the
    same, and with a script memoized returns that script, which is such a
    script over a ring [getRing] built; and while [publicKey] is null both
    throw the LedgerError of [getRing] and leave the object as it is. *)
Theorem getPrev_synthesizes_or_throws (this : LedgerInput) (c : Coin) :
  reachable this ->
  coin this = Some c ->
  isScripthash (coin_address c) = false ->
  script this = None /\
  (publicKey this = None ->
   getPrev this =
   (Throw (LedgerError "Cannot return ring without public key" None), this) /\
   getPrevRedeem this =
   (Throw (LedgerError "Cannot return ring without public key" None), this)) /\
  match getRing primary this with
  | (Ok ring, this') =>
    let prev := fromPubkeyhash (getKeyHash ring) in
    getPrev this = (Ok prev, set__prev (Some prev) this') /\
    (_prevred this = None ->
     getPrevRedeem this =
     (Ok (Some prev), set__prevred (Some prev) (set__prev (Some prev) this')))
  | (Throw e, _) =>
    getPrev this = (Throw e, this) /\
    (_prevred this = None -> getPrevRedeem this = (Throw e, this))
  end /\
  (forall v,
     _prevred this = Some v ->
     getPrevRedeem this = (Ok (Some v), this) /\
     exists ring, built ring /\ v = fromPubkeyhash (getKeyHash ring)).
Proof.
  intros Hreach Hcoin Hsh. pose proof (reachable_coherent _ Hreach) as Hcoh.
  pose proof Hcoh as (Hs & Hk & Hr & Hp & Hv).
  assert (Hprev : match getRing primary this with
                  | (Ok ring, this') =>
                    getPrev this =
                    (Ok (fromPubkeyhash (getKeyHash ring)),
                     set__prev (Some (fromPubkeyhash (getKeyHash ring))) this')
                  | (Throw e, _) => getPrev this = (Throw e, this)
                  end).
  { destruct (_prev this) as [prev|] eqn:Eprev.
    - destruct (Hp prev eq_refl) as (ring & Hring & ->).
      destruct (publicKey this) as [key|] eqn:Hkey; [|rewrite Hk in Hring; done].
      rewrite (getRing_memoized this key ring primary Hkey Hring).
      unfold getPrev. js_run. rewrite Eprev. f_equal.
      unfold pubkeyhashScript in Eprev.
      destruct this; simpl in *; subst; reflexivity.
    - unfold getPrev. js_run. rewrite Eprev, Hs.
      destruct (getRing primary this) as [[ring|e] this1] eqn:Hrun; simpl;
        [reflexivity|]. by rewrite (getRing_throws _ _ _ _ Hrun). }
  split; [assumption|]. split; [|split].
  - intros Hkey.
    assert (Eprev : _prev this = None).
    { destruct (_prev this) as [prev|] eqn:E; [|reflexivity].
      destruct (Hp _ eq_refl) as (ring & Hring & _). rewrite Hk in Hring; done. }
    assert (Ered : _prevred this = None).
    { destruct (_prevred this) as [v|] eqn:E; [|reflexivity].
      destruct (Hv _ eq_refl) as (c' & Hc' & Hrest). simplify_eq.
      destruct (Hrest Hsh) as [[k Hsome] _]. congruence. }
    assert (Hthrow : getPrev this =
      (Throw (LedgerError "Cannot return ring without public key" None), this)).
    { unfold getPrev, getRing. js_run. rewrite Eprev, Hs, Hkey. reflexivity. }
    split; [assumption|].
    unfold getPrevRedeem, this_coin. js_run. rewrite Ered, Hcoin, Hsh, Hthrow.
    reflexivity.
  - assert (Hred : _prevred this = None ->
              getPrevRedeem this =
              match getPrev this with
              | (Ok prev, this') => (Ok (Some prev), set__prevred (Some prev) this')
              | (Throw e, this') => (Throw e, this')
              end).
    { intros Hmemo. unfold getPrevRedeem, this_coin. js_run.
      rewrite Hmemo, Hcoin, Hsh. destruct (getPrev this) as [[prev|e] this1]; reflexivity. }
    revert Hprev. destruct (getRing primary this) as [[ring|e] this1]; cbv zeta;
      intros Hprev; (split; [exact Hprev|]); intros Hmemo;
      rewrite (Hred Hmemo), Hprev; reflexivity.
  - intros v Hmemo. split; [by apply getPrevRedeem_memoized|].
    destruct (Hv _ Hmemo) as (c' & Hc' & Hrest). simplify_eq.
    destruct (Hrest Hsh) as (_ & ring & Hb & ->). by exists ring.
Qed.

End WithExternals.

End Lifecycle_spec.

(** ** bufio *)

Module bufio_spec.
Import bufio.

Lemma length_le_bytes w n : length (le_bytes w n) = w.
Proof.
  revert n; induction w as [|w IH]; intros n; simpl; [reflexivity|].
  by rewrite IH.
Qed.

Lemma length_varint n : length (varint n) = sizeVarint n.
Proof.
  unfold varint, sizeVarint, u8, u16, u32, u64.
  repeat case_match; simpl; rewrite ?length_le_bytes; reflexivity.
Qed.

Lemma emits_writeBytes bs : emits (writeBytes bs) bs.
Proof.
  intros bw Hroom. unfold writeBytes.
  destruct (Nat.leb_spec (length (written bw) + length bs) (capacity bw)); [reflexivity|lia].
Qed.

Lemma emits_bind m k b1 b2 :
  emits m b1 -> emits k b2 -> emits (Js.bind m (fun _ => k)) (b1 ++ b2).
Proof.
  intros Hm Hk bw Hroom. rewrite length_app in Hroom.
  unfold Js.bind. rewrite Hm by lia. rewrite Hk; simpl.
  - by rewrite app_assoc.
  - rewrite length_app. lia.
Qed.

Lemma emits_ret : emits (Js.ret tt) [].
Proof. intros [cap bs] _. unfold Js.ret. simpl. by rewrite app_nil_r. Qed.

Lemma emits_for_of {A} (xs : list A) body (layout : A -> list byte) :
  (forall x, emits (body x) (layout x)) ->
  emits (Js.for_of xs body) (concat (map layout xs)).
Proof.
  intros Hbody. induction xs as [|x xs IH]; simpl.
  - apply emits_ret.
  - by apply emits_bind.
Qed.

(** A writer allocated for exactly what is written renders it. *)
Lemma render_filled m bs :
  emits m bs ->
  fst (Js.bind m (fun _ => render) (write (length bs))) = Ok bs.
Proof.
  intros Hm. unfold Js.bind. rewrite Hm by (simpl; lia). simpl.
  unfold render. simpl. by rewrite Nat.eqb_refl.
Qed.

End bufio_spec.

(** ** util.splitBuffer *)

Module util_spec.
Import util.

Lemma split_from_concat fuel size data :
  (0 < size)%nat -> (length data <= fuel)%nat ->
  concat (split_from fuel size data) = data.
Proof.
  intros Hsize. revert data. induction fuel as [|fuel IH]; intros data Hfuel.
  - destruct data; [reflexivity|simpl in Hfuel; lia].
  - destruct data as [|b data]; [reflexivity|].
    cbn [split_from concat]. rewrite IH.
    + apply take_drop.
    + rewrite length_drop. simpl in *. lia.
Qed.

Lemma split_from_length fuel size data :
  (0 < size)%nat -> (length data <= fuel)%nat ->
  length (split_from fuel size data) = ((length data + (size - 1)) / size)%nat.
Proof.
  intros Hsize. revert data. induction fuel as [|fuel IH]; intros data Hfuel.
  - destruct data; [|simpl in Hfuel; lia]. simpl.
    symmetry. apply Nat.div_small. lia.
  - destruct data as [|b data].
    + simpl. symmetry. apply Nat.div_small. lia.
    + cbn [split_from length]. rewrite IH by (rewrite length_drop; simpl in *; lia).
      rewrite length_drop. simpl length. set (len := S (length data)).
      assert (Hlen : (0 < len)%nat) by (unfold len; lia).
      destruct (Nat.le_gt_cases size len) as [Hge|Hlt].
      * replace (len + (size - 1))%nat with ((len - size + (size - 1)) + 1 * size)%nat by lia.
        rewrite Nat.div_add by lia. lia.
      * replace (len - size)%nat with 0%nat by lia.
        rewrite (Nat.div_small (0 + (size - 1)) size) by lia.
        apply (Nat.div_unique _ _ 1 (len - 1)); lia.
Qed.

Lemma split_from_bounded fuel size data :
  (0 < size)%nat ->
  Forall (fun chunk => (0 < length chunk <= size)%nat) (split_from fuel size data).
Proof.
  intros Hsize. revert data. induction fuel as [|fuel IH]; intros data; [constructor|].
  destruct data as [|b data]; [constructor|].
  cbn [split_from]. constructor; [|apply IH].
  rewrite length_take. simpl length. lia.
Qed.

(** The chunks, put back together, are the buffer. *)
Lemma splitBuffer_concat data size : concat (splitBuffer data size) = data.
Proof. apply split_from_concat; lia. Qed.

(** There are [ceil(length / size)] of them. *)
Lemma splitBuffer_length data size :
  length (splitBuffer data size) = ceil_div (length data) size.
Proof. apply split_from_length; lia. Qed.

(** None is empty and none exceeds the bound. *)
Lemma splitBuffer_bounded data size :
  Forall (fun chunk => (0 < length chunk <= Pos.to_nat size)%nat) (splitBuffer data size).
Proof. apply split_from_bounded; lia. Qed.


Lemma ceil_div_many len size :
  (Pos.to_nat size < len)%nat -> (1 < ceil_div len size)%nat.
Proof.
  intros Hlen. unfold ceil_div.
  pose proof (Pos2Nat.is_pos size) as Hpos.
  replace (len + (Pos.to_nat size - 1))%nat
    with ((len - 1 - Pos.to_nat size) + 2 * Pos.to_nat size)%nat by lia.
  rewrite Nat.div_add by lia. lia.
Qed.

Lemma ceil_div_pos len size : (0 < len)%nat -> (0 < ceil_div len size)%nat.
Proof.
  intros Hlen. unfold ceil_div.
  pose proof (Pos2Nat.is_pos size) as Hpos.
  replace (len + (Pos.to_nat size - 1))%nat
    with ((len - 1) + 1 * Pos.to_nat size)%nat by lia.
  rewrite Nat.div_add by lia. lia.
Qed.

End util_spec.

(** ** The protocol engine *)

Module Client_spec.
Import hsd Input Client bufio_spec util_spec.

Section Preamble.
Context `{bufio.Writable Outpoint} `{bufio.Writable Address} `{bufio.Writable Covenant}.

Lemma length_inputLayout input :
  length (inputLayout input) = (4 + bufio.size_of (prevout input))%nat.
Proof.
  unfold inputLayout, bufio.u32.
  rewrite length_app, length_le_bytes, bufio.size_of_encode. lia.
Qed.

Lemma length_outputLayout output :
  length (outputLayout output) =
  (8 + bufio.size_of (address output) + bufio.size_of (covenant output))%nat.
Proof.
  unfold outputLayout, bufio.u64.
  rewrite !length_app, length_le_bytes, !bufio.size_of_encode. lia.
Qed.

Lemma inputs_size_loop (l : list Input) (size : nat) :
  foldl (fun size input => size + 4 + bufio.size_of (prevout input))%nat size l =
  (size + length (concat (map inputLayout l)))%nat.
Proof.
  revert size. induction l as [|input l IH]; intros size; cbn [foldl map concat];
    [simpl; lia|].
  rewrite IH, length_app, length_inputLayout. lia.
Qed.

Lemma outputs_size_loop (l : list Output) (outs : nat) :
  foldl (fun outs output =>
           outs + 8 + bufio.size_of (address output) + bufio.size_of (covenant output))%nat
        outs l =
  (outs + length (concat (map outputLayout l)))%nat.
Proof.
  revert outs. induction l as [|output l IH]; intros outs; cbn [foldl map concat];
    [simpl; lia|].
  rewrite IH, length_app, length_outputLayout. lia.
Qed.

Lemma outputsSize_layout mtx : outputsSize mtx = length (outputsLayout mtx).
Proof. unfold outputsSize, outputsLayout. by rewrite outputs_size_loop. Qed.

Lemma preambleSize_layout mtx : preambleSize mtx = length (preambleLayout mtx).
Proof.
  unfold preambleSize, preambleLayout, bufio.u32.
  rewrite inputs_size_loop, outputsSize_layout.
  rewrite !length_app, !length_le_bytes, !length_varint. lia.
Qed.

Lemma emits_input input :
  bufio.emits
    (Js.bind (bufio.writeBytes (bufio.encode (prevout input)))
             (fun _ => bufio.writeU32 (sequence input)))
    (inputLayout input).
Proof. apply emits_bind; apply emits_writeBytes. Qed.

Lemma emits_output output :
  bufio.emits
    (Js.bind (bufio.writeU64 (value output))
       (fun _ => Js.bind (bufio.writeBytes (bufio.encode (address output)))
       (fun _ => bufio.writeBytes (bufio.encode (covenant output)))))
    (outputLayout output).
Proof. repeat apply emits_bind; apply emits_writeBytes. Qed.

(** A step that fits is followed by the rest of the method. *)
Lemma bind_emits {A} m (k : M bufio.StaticWriter A) bs bw :
  bufio.emits m bs ->
  (length (bufio.written bw) + length bs <= bufio.capacity bw)%nat ->
  Js.bind m (fun _ => k) bw =
  k {| bufio.capacity := bufio.capacity bw; bufio.written := bufio.written bw ++ bs |}.
Proof. intros Hm Hroom. unfold Js.bind. by rewrite Hm. Qed.

Lemma renderPreamble_layout mtx : renderPreamble mtx = Ok (preambleLayout mtx).
Proof.
  unfold renderPreamble, writePreamble. rewrite preambleSize_layout.
  pose proof (eq_refl : preambleLayout mtx = preambleLayout mtx) as Hlay.
  unfold preambleLayout at 1 in Hlay.
  set (out := preambleLayout mtx) in *.
  apply (f_equal length) in Hlay. rewrite !length_app in Hlay.
  unfold bufio.writeU32, bufio.writeVarint at 1 2 3.
  rewrite outputsSize_layout.
  rewrite (bind_emits _ _ _ _ (emits_writeBytes _)) by (simpl; lia).
  rewrite (bind_emits _ _ _ _ (emits_writeBytes _)) by (simpl; rewrite ?length_app; lia).
  rewrite (bind_emits _ _ _ _ (emits_writeBytes _)) by (simpl; rewrite ?length_app; lia).
  rewrite (bind_emits _ _ _ _ (emits_writeBytes _)) by (simpl; rewrite ?length_app; lia).
  rewrite (bind_emits _ _ _ _ (emits_writeBytes _)) by (simpl; rewrite ?length_app; lia).
  rewrite (bind_emits _ _ _ _ (emits_for_of _ _ _ emits_input))
    by (simpl; rewrite ?length_app; lia).
  rewrite (bind_emits _ _ _ _ (emits_for_of _ _ _ emits_output))
    by (simpl; rewrite ?length_app; fold (outputsLayout mtx); lia).
  unfold bufio.render. simpl.
  fold (outputsLayout mtx).
  assert (Hout : (bufio.u32 (version mtx) ++ bufio.u32 (locktime mtx))
                 ++ bufio.varint (Z.of_nat (length (inputs mtx)))
                 ++ bufio.varint (Z.of_nat (length (outputs mtx)))
                 ++ bufio.varint (Z.of_nat (length (outputsLayout mtx)))
                 ++ concat (map inputLayout (inputs mtx))
                 ++ outputsLayout mtx = out).
  { unfold out, preambleLayout. by rewrite <- !app_assoc. }
  rewrite <- !app_assoc. rewrite <- !app_assoc in Hout. simpl in Hout. simpl.
  rewrite Hout, Nat.eqb_refl. reflexivity.
Qed.

(** C6: for every transaction the preamble is rendered, as one buffer of
    exactly the size computed beforehand, and reads: version and locktime
    on 32 bits each, the varints of the input count, of the output count
    and of the size of the serialised outputs, then for each input its
    previous outpoint and its 32-bit sequence number, then for each output
    its 64-bit value, its address and its covenant. *)
Theorem parseTX_preamble_layout (mtx : MTX) :
  renderPreamble mtx =
  Ok (bufio.u32 (version mtx)
      ++ bufio.u32 (locktime mtx)
      ++ bufio.varint (Z.of_nat (length (inputs mtx)))
      ++ bufio.varint (Z.of_nat (length (outputs mtx)))
      ++ bufio.varint (Z.of_nat (length (outputsLayout mtx)))
      ++ concat (map (fun input =>
                        bufio.encode (prevout input) ++ bufio.u32 (sequence input))
                     (inputs mtx))
      ++ concat (map (fun output =>
                        bufio.u64 (value output) ++ bufio.encode (address output)
                        ++ bufio.encode (covenant output))
                     (outputs mtx))) /\
  length (preambleLayout mtx) = preambleSize mtx /\
  length (outputsLayout mtx) = outputsSize mtx.
Proof.
  split; [apply renderPreamble_layout|].
  split; [symmetry; apply preambleSize_layout|symmetry; apply outputsSize_layout].
Qed.

End Preamble.

Section Engine.
Context `{Externals}.
Context `{bufio.Writable Outpoint} `{bufio.Writable Address} `{bufio.Writable Covenant}.
Variables MAX_TX_PACKET MAX_SCRIPT_PACKET : positive.
Variable parseTX_command : option (list byte) -> bool -> Result (list byte).
Variable getInputSignature_command :
  option LedgerInput -> option Input -> option (list byte) -> bool -> Result (list byte).
Variable getInputSignature_response : list byte -> bool -> Result (list byte).
Variable device : Wire -> Result (list byte).

Local Abbreviation reply := (Client.reply device).
Local Abbreviation acknowledged := (Client.acknowledged device).
Local Abbreviation refused := (Client.refused device).

(** The body of the loop of [parseTX]. *)
Local Abbreviation send_chunk :=
  (fun msg : list byte =>
     Js.bind (Js.lift (parseTX_command (Some msg) false)) (fun packet =>
     Js.bind (exchange device packet) (fun res =>
     Js.lift (apdu.parseTX_response res)))).

Lemma acknowledged_response wire packets i :
  acknowledged wire packets i = true ->
  exists res, reply wire packets i = Ok res /\ apdu.parseTX_response res = Ok tt.
Proof.
  unfold Client.acknowledged. destruct (reply wire packets i) as [res|e]; [|discriminate].
  intros [Hsw Hlen]%andb_prop. exists res. split; [reflexivity|].
  apply bool_decide_eq_true in Hsw. unfold apdu.parseTX_response.
  by rewrite Hsw, Z.eqb_refl, Hlen.
Qed.

Lemma refused_response wire packets i sw :
  refused wire packets i sw = true ->
  exists res, reply wire packets i = Ok res /\
              apdu.parseTX_response res = Throw (common.errorOfStatus sw).
Proof.
  unfold Client.refused. destruct (reply wire packets i) as [res|e]; [|discriminate].
  intros [Hsw Hne]%andb_prop. exists res. split; [reflexivity|].
  apply bool_decide_eq_true in Hsw. apply negb_true_iff in Hne.
  unfold apdu.parseTX_response. by rewrite Hsw, Hne.
Qed.

Lemma reply_first wire p packets : reply wire (p :: packets) 0 = device (wire ++ [p]).
Proof. reflexivity. Qed.

Lemma reply_shift wire p packets i :
  reply (wire ++ [p]) packets i = reply wire (p :: packets) (S i).
Proof. unfold Client.reply. by rewrite <- app_assoc. Qed.

Lemma acknowledged_shift wire p packets i :
  acknowledged (wire ++ [p]) packets i = acknowledged wire (p :: packets) (S i).
Proof. unfold Client.acknowledged. by rewrite reply_shift. Qed.

Lemma refused_shift wire p packets i sw :
  refused (wire ++ [p]) packets i sw = refused wire (p :: packets) (S i) sw.
Proof. unfold Client.refused. by rewrite reply_shift. Qed.

(** One round trip of [parseTX]: the command is written, and the response
    decides whether the method goes on. *)
Lemma send_chunk_step first (msg : option (list byte)) p wire (k : M Wire unit) :
  parseTX_command msg first = Ok p ->
  Js.bind (Js.lift (parseTX_command msg first)) (fun packet =>
    Js.bind (exchange device packet) (fun res =>
    Js.bind (Js.lift (apdu.parseTX_response res)) (fun _ => k))) wire =
  match device (wire ++ [p]) with
  | Ok res =>
    match apdu.parseTX_response res with
    | Ok _ => k (wire ++ [p])
    | Throw e => (Throw e, wire ++ [p])
    end
  | Throw e => (Throw e, wire ++ [p])
  end.
Proof.
  intros Hp. unfold Js.bind, Js.lift, exchange. rewrite Hp.
  destruct (device (wire ++ [p])) as [res|e]; [|reflexivity].
  destruct (apdu.parseTX_response res); reflexivity.
Qed.

Lemma send_chunk_last (msg : list byte) p wire :
  parseTX_command (Some msg) false = Ok p ->
  send_chunk msg wire =
  match device (wire ++ [p]) with
  | Ok res =>
    match apdu.parseTX_response res with
    | Ok _ => (Ok tt, wire ++ [p])
    | Throw e => (Throw e, wire ++ [p])
    end
  | Throw e => (Throw e, wire ++ [p])
  end.
Proof.
  intros Hp. unfold Js.bind, Js.lift, exchange. rewrite Hp.
  destruct (device (wire ++ [p])) as [res|e]; [|reflexivity].
  destruct (apdu.parseTX_response res) as [[]|]; reflexivity.
Qed.

(** The loop over the later chunks, every one acknowledged. *)
Lemma rest_acknowledged (msgs : list (list byte)) :
  forall (packets : list (list byte)) (wire : Wire),
    map (fun msg => parseTX_command (Some msg) false) msgs = Ok <$> packets ->
    (forall i, (i < length packets)%nat -> acknowledged wire packets i = true) ->
    Js.for_of msgs send_chunk wire = (Ok tt, wire ++ packets).
Proof.
  induction msgs as [|msg msgs IH]; intros packets wire Hcmd Hack.
  - destruct packets; [|discriminate]. by rewrite app_nil_r.
  - destruct packets as [|p packets]; [discriminate|].
    injection Hcmd as Hp Hcmd. cbn [Js.for_of].
    unfold Js.bind at 1. rewrite (send_chunk_last _ _ _ Hp).
    destruct (acknowledged_response wire (p :: packets) 0) as (res & Hres & Hparse).
    { apply Hack. simpl. lia. }
    rewrite reply_first in Hres. rewrite Hres, Hparse.
    rewrite (IH packets (wire ++ [p])); [by rewrite <- app_assoc|assumption|].
    intros i Hi. rewrite acknowledged_shift. apply Hack. simpl. lia.
Qed.

(** The loop over the later chunks, the [k]-th refused. *)
Lemma rest_refused (msgs : list (list byte)) :
  forall (packets : list (list byte)) (wire : Wire) (k : nat) (sw : Z),
    map (fun msg => parseTX_command (Some msg) false) msgs = Ok <$> packets ->
    (k < length packets)%nat ->
    (forall i, (i < k)%nat -> acknowledged wire packets i = true) ->
    refused wire packets k sw = true ->
    Js.for_of msgs send_chunk wire =
    (Throw (common.errorOfStatus sw), wire ++ take (S k) packets).
Proof.
  induction msgs as [|msg msgs IH]; intros packets wire k sw Hcmd Hk Hack Hrefused.
  - destruct packets; [simpl in Hk; lia|discriminate].
  - destruct packets as [|p packets]; [discriminate|].
    injection Hcmd as Hp Hcmd. cbn [Js.for_of].
    unfold Js.bind at 1. rewrite (send_chunk_last _ _ _ Hp).
    destruct k as [|k].
    + destruct (refused_response _ _ _ _ Hrefused) as (res & Hres & Hparse).
      rewrite reply_first in Hres. rewrite Hres, Hparse. reflexivity.
    + destruct (acknowledged_response wire (p :: packets) 0) as (res & Hres & Hparse).
      { apply Hack. lia. }
      rewrite reply_first in Hres. rewrite Hres, Hparse.
      rewrite (IH packets (wire ++ [p]) k sw); try assumption.
      * by rewrite <- app_assoc.
      * simpl in Hk. lia.
      * intros i Hi. rewrite acknowledged_shift. apply Hack. lia.
      * by rewrite refused_shift.
Qed.

Lemma imap_later {A B} (f : nat -> A -> B) (g : A -> B) (l : list A) :
  (forall i x, f i x = g x) -> imap f l = map g l.
Proof.
  intros Hfg. revert f Hfg. induction l as [|x l IH]; intros f Hfg; [reflexivity|].
  cbn [imap map]. rewrite Hfg. f_equal. apply IH. intros i y. apply Hfg.
Qed.

Lemma txPackets_cons chunk chunks :
  txPackets parseTX_command (chunk :: chunks) =
  parseTX_command (Some chunk) true
  :: map (fun msg => parseTX_command (Some msg) false) chunks.
Proof.
  unfold txPackets. cbn [imap]. f_equal. apply imap_later. reflexivity.
Qed.

(** [parseTX] once the preamble is rendered and cut. *)
Lemma parseTX_chunks mtx ledgerInputByKey wire chunk rest :
  util.splitBuffer (preambleLayout mtx) MAX_TX_PACKET = chunk :: rest ->
  parseTX MAX_TX_PACKET parseTX_command device mtx ledgerInputByKey wire =
  Js.bind (Js.lift (parseTX_command (Some chunk) true)) (fun packet =>
    Js.bind (exchange device packet) (fun res =>
    Js.bind (Js.lift (apdu.parseTX_response res)) (fun _ =>
    Js.for_of rest send_chunk))) wire.
Proof.
  intros Hchunks. unfold parseTX. unfold Js.bind at 1. unfold Js.lift at 1.
  rewrite renderPreamble_layout. cbn beta iota zeta. rewrite Hchunks. reflexivity.
Qed.

(** C5: when the preamble is larger than the maximum transaction packet,
    it is cut into more than one chunk; the commands go out in the order of
    the chunks, the first tagged as a new message and every later one as a
    continuation, each only after the one before was acknowledged with
    success; if the first response that is not a success acknowledgement,
    the one to chunk [k], ends in a status word other than SUCCESS, the
    method throws the error the status table maps that word to and chunk
    [k] is the last thing written; if every response is a success
    acknowledgement the method returns with every chunk written. *)
Theorem parseTX_streams_chunks_in_order (mtx : MTX)
    (ledgerInputByKey : gmap string LedgerInput) (wire : Wire)
    (packets : list (list byte)) :
  let chunks := util.splitBuffer (preambleLayout mtx) MAX_TX_PACKET in
  (Pos.to_nat MAX_TX_PACKET < length (preambleLayout mtx))%nat ->
  txPackets parseTX_command chunks = Ok <$> packets ->
  renderPreamble mtx = Ok (concat chunks) /\
  (1 < length chunks)%nat /\
  length packets = length chunks /\
  (forall k sw,
     (k < length packets)%nat ->
     (forall i, (i < k)%nat -> acknowledged wire packets i = true) ->
     refused wire packets k sw = true ->
     parseTX MAX_TX_PACKET parseTX_command device mtx ledgerInputByKey wire =
     (Throw (common.errorOfStatus sw), wire ++ take (S k) packets)) /\
  ((forall i, (i < length packets)%nat -> acknowledged wire packets i = true) ->
   parseTX MAX_TX_PACKET parseTX_command device mtx ledgerInputByKey wire =
   (Ok tt, wire ++ packets)).
Proof.
  intros chunks Hbig Hcmd.
  assert (Hn : (1 < length chunks)%nat).
  { unfold chunks. rewrite splitBuffer_length. by apply ceil_div_many. }
  assert (Hlen : length packets = length chunks).
  { apply (f_equal length) in Hcmd. unfold txPackets in Hcmd.
    rewrite length_imap, length_fmap in Hcmd. done. }
  split; [unfold chunks; rewrite splitBuffer_concat; apply renderPreamble_layout|].
  split; [assumption|]. split; [assumption|].
  destruct chunks as [|chunk rest] eqn:Hchunks; [simpl in Hn; lia|].
  rewrite (parseTX_chunks _ _ _ _ _ Hchunks). clear Hchunks.
  rewrite txPackets_cons in Hcmd.
  destruct packets as [|p packets]; [discriminate|].
  injection Hcmd as Hp Hcmd.
  split.
  - intros k sw Hk Hack Hrefused.
    rewrite (send_chunk_step _ _ _ _ _ Hp).
    destruct k as [|k].
    + destruct (refused_response _ _ _ _ Hrefused) as (res & Hres & Hparse).
      rewrite reply_first in Hres. rewrite Hres, Hparse. reflexivity.
    + destruct (acknowledged_response wire (p :: packets) 0) as (res & Hres & Hparse).
      { apply Hack. lia. }
      rewrite reply_first in Hres. rewrite Hres, Hparse.
      rewrite (rest_refused rest packets (wire ++ [p]) k sw); try assumption.
      * by rewrite <- app_assoc.
      * simpl in Hk. lia.
      * intros i Hi. rewrite acknowledged_shift. apply Hack. lia.
      * by rewrite refused_shift.
  - intros Hack.
    rewrite (send_chunk_step _ _ _ _ _ Hp).
    destruct (acknowledged_response wire (p :: packets) 0) as (res & Hres & Hparse).
    { apply Hack. simpl. lia. }
    rewrite reply_first in Hres. rewrite Hres, Hparse.
    rewrite (rest_acknowledged rest packets (wire ++ [p])); [by rewrite <- app_assoc|assumption|].
    intros i Hi. rewrite acknowledged_shift. apply Hack. simpl. lia.
Qed.

(** The body of the loop of [getInputSignature]. *)
Local Abbreviation send_middle :=
  (fun msg : list byte =>
     Js.bind (Js.lift (getInputSignature_command None None (Some msg) false)) (fun packet =>
     Js.bind (on_wire (exchange device packet)) (fun res =>
     Js.bind (Js.lift (getInputSignature_response res true)) (fun _ =>
     Js.ret tt)))).




Lemma sigPackets_cons ledgerInput hsdInput chunk chunks :
  sigPackets getInputSignature_command ledgerInput hsdInput (chunk :: chunks) =
  getInputSignature_command (Some ledgerInput) (Some hsdInput) (Some chunk) true
  :: map (fun msg => getInputSignature_command None None (Some msg) false) chunks.
Proof.
  unfold sigPackets. cbn [imap]. f_equal. apply imap_later. reflexivity.
Qed.

Lemma length_varBytes raw : length (varBytes raw) = getVarSize raw.
Proof. unfold varBytes, getVarSize. by rewrite length_app, length_varint. Qed.

Lemma varBytes_nonempty raw : (0 < length (varBytes raw))%nat.
Proof.
  rewrite length_varBytes. unfold getVarSize, bufio.sizeVarint.
  repeat case_match; lia.
Qed.

(** The script behind its size, as [getInputSignature] renders it. *)
Lemma render_varBytes raw :
  fst (Js.bind (bufio.writeBytes (varBytes raw)) (fun _ => bufio.render)
         (bufio.write (getVarSize raw))) = Ok (varBytes raw).
Proof. rewrite <- length_varBytes. apply render_filled, emits_writeBytes. Qed.




End Engine.

End Client_spec.

(** ** The statements at work on the sample data *)

Module Examples.
Import hsd Input Lifecycle Client.
Import Input_spec Lifecycle_spec Client_spec.

#[local] Existing Instance Sample.externals.
#[local] Existing Instance Sample.writable_outpoint.
#[local] Existing Instance Sample.writable_address.
#[local] Existing Instance Sample.writable_covenant.

Lemma fromOptions_sighash_check_reversed_witness :
  static_fromOptions (Some (Sample.options_with_type (Some ALL))) =
  Throw (AssertionError "Ledger only supports SIGHASH_ALL") /\
  exists this,
    static_fromOptions (Some (Sample.options_with_type (Some SINGLE))) = Ok this /\
    SINGLE <> ALL /\ type this = SINGLE.
Proof.
  split.
  - exact (proj1 (fromOptions_sighash_check_reversed
                    (Sample.options_with_type (Some ALL)) _ eq_refl) eq_refl).
  - eexists. split; [reflexivity|].
    exact (proj2 (fromOptions_sighash_check_reversed
                    (Sample.options_with_type (Some SINGLE)) _ eq_refl)
                 SINGLE _ eq_refl eq_refl).
Defined.

(** C3: [refresh] never touches the memoized previous-redeem script, so
    it survives the reset.  On a script-hash input whose redeem script was
    handed out once, then replaced through [fromOptions], [refresh] followed
    by [getPrevRedeem] still returns the replaced script, not the current
    one. *)
Theorem refresh_keeps_prevred :
  (forall this, _prevred (snd (refresh this)) = _prevred this) /\
  static_fromOptions
    (Some (Sample.options_scripthash (Some (RedeemScript Sample.redeem_script))))
  = Ok Sample.scripthash_input /\
  getPrevRedeem Sample.scripthash_input =
  (Ok (Some Sample.redeem_script), Sample.scripthash_input_used) /\
  fromOptions
    (Some (Sample.options_scripthash (Some (RedeemScript Sample.other_redeem_script))))
    Sample.scripthash_input_used
  = (Ok tt, Sample.scripthash_input_changed) /\
  refresh Sample.scripthash_input_changed = (Ok tt, Sample.scripthash_input_reset) /\
  redeem Sample.scripthash_input_reset = Some Sample.other_redeem_script /\
  getPrevRedeem Sample.scripthash_input_reset =
  (Ok (Some Sample.redeem_script), Sample.scripthash_input_reset).
Proof.
  split; [reflexivity|]. repeat split; vm_compute; reflexivity.
Qed.

Lemma fromOptions_scripthash_needs_redeem_witness :
  static_fromOptions (Some (Sample.options_scripthash None)) =
  Throw (AssertionError "Cannot sign ScriptHash without redeem.") /\
  exists this,
    static_fromOptions
      (Some (Sample.options_scripthash (Some (RedeemBuffer [x51; x52; xae])))) = Ok this /\
    redeem this = Some Sample.redeem_script /\
    coin this = Some (Sample.coin_at Sample.scripthash_address).
Proof.
  split.
  - exact (proj2 (proj1 (fromOptions_scripthash_needs_redeem
                           (Sample.options_scripthash None) _ eq_refl eq_refl) eq_refl)
                 eq_refl).
  - exact (proj2 (fromOptions_scripthash_needs_redeem
                    (Sample.options_scripthash (Some (RedeemBuffer [x51; x52; xae])))
                    _ eq_refl eq_refl)
                 Sample.redeem_script eq_refl eq_refl).
Defined.

Lemma fromOptions_scripthash_redeem_refused_with_ALL_witness :
  static_fromOptions
    (Some {| opt_path := Some (PathArray [44; 5353; 0; 0; 0]);
             opt_coin := Some (Sample.coin_at Sample.scripthash_address);
             opt_redeem := Some (RedeemScript Sample.redeem_script);
             opt_publicKey := Some (KeyBuffer Sample.key1);
             opt_type := Some ALL |}) =
  Throw (AssertionError "Ledger only supports SIGHASH_ALL") /\
  static_fromOptions
    (Some {| opt_path := Some (PathArray [44; 5353; 0; 0; 0]);
             opt_coin := Some (Sample.coin_at Sample.scripthash_address);
             opt_redeem := Some (RedeemScript Sample.redeem_script);
             opt_publicKey := Some (KeyBuffer Sample.key1);
             opt_type := None |}) = Ok Sample.scripthash_input.
Proof.
  destruct (fromOptions_scripthash_redeem_refused_with_ALL [44; 5353; 0; 0; 0]
              (Sample.coin_at Sample.scripthash_address) Sample.redeem_script
              (Some Sample.key1) eq_refl)
    as (Hrefused & _ & _ & _).
  split; [exact Hrefused|reflexivity].
Defined.

Lemma getPrevRedeem_outlives_refresh_witness :
  isScripthash (coin_address (Sample.coin_at Sample.scripthash_address)) = true /\
  coin Sample.scripthash_input_reset =
  Some (Sample.coin_at Sample.scripthash_address) /\
  redeem Sample.scripthash_input_reset = Some Sample.other_redeem_script /\
  Sample.other_redeem_script <> Sample.redeem_script /\
  getPrevRedeem Sample.scripthash_input_reset =
  (Ok (Some Sample.redeem_script), Sample.scripthash_input_reset).
Proof.
  destruct (getPrevRedeem_outlives_refresh Sample.scripthash_input_changed
              Sample.redeem_script eq_refl)
    as (Hstale & Hredeem & Hcoin).
  split; [reflexivity|]. split; [etransitivity; [exact Hcoin|reflexivity]|].
  split; [etransitivity; [exact Hredeem|reflexivity]|].
  split; [discriminate|exact Hstale].
Defined.

Lemma getRing_builds_once_witness :
  getRing primary fresh =
  (Throw (LedgerError "Cannot return ring without public key" None), fresh) /\
  getRing testnet Sample.scripthash_input =
  (Ok (mkKeyRing Sample.key1 testnet (Some Sample.redeem_script)),
   set__ring (Some (mkKeyRing Sample.key1 testnet (Some Sample.redeem_script)))
     Sample.scripthash_input) /\
  getRing main
    (set__ring (Some (mkKeyRing Sample.key1 testnet (Some Sample.redeem_script)))
       Sample.scripthash_input) =
  (Ok (mkKeyRing Sample.key1 testnet (Some Sample.redeem_script)),
   set__ring (Some (mkKeyRing Sample.key1 testnet (Some Sample.redeem_script)))
     Sample.scripthash_input) /\
  getRing testnet Sample.ledger_input =
  (Ok (mkKeyRing Sample.key1 testnet None),
   set__ring (Some (mkKeyRing Sample.key1 testnet None)) Sample.ledger_input).
Proof.
  split; [|split; [|split]].
  - exact (proj1 (getRing_builds_once fresh primary) eq_refl).
  - exact (proj1 (proj1 (proj2 (getRing_builds_once Sample.scripthash_input testnet))
                    Sample.key1 eq_refl eq_refl)).
  - exact (proj2 (proj1 (proj2 (getRing_builds_once Sample.scripthash_input testnet))
                    Sample.key1 eq_refl eq_refl) main).
  - exact (proj1 (proj1 (proj2 (getRing_builds_once Sample.ledger_input testnet))
                    Sample.key1 eq_refl eq_refl)).
Defined.

Lemma getPrevRedeem_redeem_or_prev_witness :
  getPrevRedeem Sample.ledger_input =
  (Ok (Some Sample.prev_script), Sample.ledger_input_used) /\
  getPrev Sample.ledger_input_used = (Ok Sample.prev_script, Sample.ledger_input_used) /\
  getPrevRedeem Sample.ledger_input_used =
  (Ok (Some Sample.prev_script), Sample.ledger_input_used).
Proof.
  pose proof (getPrevRedeem_redeem_or_prev Sample.ledger_input _ eq_refl) as [Hfirst Hagain].
  specialize (Hfirst eq_refl). cbv beta iota in Hfirst.
  change (isScripthash (coin_address (Sample.coin_at Sample.pubkeyhash_address)))
    with false in Hfirst.
  cbv iota in Hfirst.
  change (getPrev Sample.ledger_input)
    with (Ok Sample.prev_script, snd (getPrev Sample.ledger_input)) in Hfirst.
  cbv iota in Hfirst. destruct Hfirst as [Hfirst Hprev].
  split; [exact Hfirst|]. split; [exact Hprev|].
  exact (Hagain _ _ Hfirst).
Defined.

Lemma getPrev_synthesizes_or_throws_witness :
  let this := after (CallFromOptions (Some Sample.options_without_key)) fresh in
  let used := after (CallFromOptions (Some (Sample.options_with_type None))) fresh in
  (script this = None /\
   getPrev this =
   (Throw (LedgerError "Cannot return ring without public key" None), this) /\
   getPrevRedeem this =
   (Throw (LedgerError "Cannot return ring without public key" None), this)) /\
  (script used = None /\
   getPrev used =
   (Ok Sample.prev_script,
    set__prev (Some Sample.prev_script)
      (set__ring (Some (mkKeyRing Sample.key1 main None)) used)) /\
   getPrevRedeem used =
   (Ok (Some Sample.prev_script),
    set__prevred (Some Sample.prev_script)
      (set__prev (Some Sample.prev_script)
         (set__ring (Some (mkKeyRing Sample.key1 main None)) used)))).
Proof.
  intros this used. split.
  - destruct (getPrev_synthesizes_or_throws this
                (Sample.coin_at Sample.pubkeyhash_address)
                (reachable_call _ _ reachable_new) eq_refl eq_refl)
      as (Hscript & Hthrow & _).
    destruct (Hthrow eq_refl) as [Hprev Hprevred].
    repeat split; assumption.
  - destruct (getPrev_synthesizes_or_throws used
                (Sample.coin_at Sample.pubkeyhash_address)
                (reachable_call _ _ reachable_new) eq_refl eq_refl)
      as (Hscript & _ & Hrun & _).
    change (getRing primary used)
      with (Ok (mkKeyRing Sample.key1 main None),
            set__ring (Some (mkKeyRing Sample.key1 main None)) used) in Hrun.
    cbv beta iota zeta in Hrun. destruct Hrun as [Hprev Hprevred].
    split; [exact Hscript|]. split; [exact Hprev|]. exact (Hprevred eq_refl).
Defined.

Lemma parseTX_streams_chunks_in_order_witness :
  parseTX 50 Sample.tx_command (Sample.device_failing_at 1 [x69; x85])
          Sample.mtx ∅ [] =
  (Throw (LedgerError "User rejected on-screen confirmation" (Some 0x6985)),
   take 2 Sample.tx_packets) /\
  parseTX 50 Sample.tx_command (Sample.device_failing_at 7 [x69; x85])
          Sample.mtx ∅ [] =
  (Ok tt, Sample.tx_packets).
Proof.
  split.
  - pose proof (parseTX_streams_chunks_in_order 50 Sample.tx_command
                  (Sample.device_failing_at 1 [x69; x85]) Sample.mtx ∅ []
                  Sample.tx_packets) as Hthm.
    cbv zeta in Hthm.
    destruct Hthm as (_ & _ & _ & Habort & _).
    + apply Nat.ltb_lt. vm_compute. reflexivity.
    + vm_compute. reflexivity.
    + apply (Habort 1%nat 0x6985).
      * apply Nat.ltb_lt. vm_compute. reflexivity.
      * intros i Hi. assert (i = 0%nat) as -> by lia. vm_compute. reflexivity.
      * vm_compute. reflexivity.
  - pose proof (parseTX_streams_chunks_in_order 50 Sample.tx_command
                  (Sample.device_failing_at 7 [x69; x85]) Sample.mtx ∅ []
                  Sample.tx_packets) as Hthm.
    cbv zeta in Hthm.
    destruct Hthm as (_ & _ & _ & _ & Hall).
    + apply Nat.ltb_lt. vm_compute. reflexivity.
    + vm_compute. reflexivity.
    + apply Hall. intros i Hi.
      assert (Hlen : length Sample.tx_packets = 3%nat) by (vm_compute; reflexivity).
      rewrite Hlen in Hi.
      destruct i as [|[|[|i]]]; [vm_compute; reflexivity..|lia].
Defined.


(** A script that fits in one chunk: one exchange, and its response is
    the one parsed. *)
Example getInputSignature_single_chunk :
  getInputSignature 255 Sample.sig_command Sample.sig_response
    (Sample.device_signing_at 1 Sample.signature) Sample.hsd_input
    (Sample.ledger_input, []) =
  (Ok Sample.signature,
   (Sample.ledger_input_used, [x01 :: varBytes Sample.prev_script])).
Proof. vm_compute. reflexivity. Qed.

(** The preamble of the sample transaction. *)
Example renderPreamble_sample :
  renderPreamble Sample.mtx = Ok (preambleLayout Sample.mtx) /\
  length (preambleLayout Sample.mtx) = 127%nat.
Proof. split; vm_compute; reflexivity. Qed.

End Examples.

(** ** The tables of common.js *)

Module common_constants_spec.
Import common common_constants.

Lemma injective_by_table (table : gmap string Z) :
  map_Forall (fun k v => map_Forall (fun k' v' => v = v' -> k = k') table) table ->
  injective table.
Proof.
  intros Hall name1 name2 code H1 H2.
  exact (Hall name1 code H1 name2 code H2 eq_refl).
Qed.

Lemma below_by_table (bound : Z) (table : gmap string Z) :
  map_Forall (fun _ v => 0 <= v < bound) table -> below bound table.
Proof. intros Hall name code Hname. exact (Hall name code Hname). Qed.

Ltac by_table := apply (bool_decide_unpack _); by vm_compute.

(** X1: a status word, a class byte or an instruction byte is the number of
    one name only: no two names of [status], of [cla] or of [ins] share a
    value. *)
Theorem tables_injective : injective status /\ injective cla /\ injective ins.
Proof. split; [|split]; apply injective_by_table; by_table. Qed.

(** X2: the two tables name the same errors: a name has a message in
    [errorByStatus] and is not [UNKNOWN_ERROR] exactly when it has a word
    in [status] and is not [SUCCESS]. *)
Theorem status_names_have_messages (name : string) :
  is_Some (errorByStatus !! name) /\ name <> "UNKNOWN_ERROR" <->
  is_Some (status !! name) /\ name <> "SUCCESS".
Proof.
  assert (Hmsg : map_Forall
            (fun k _ => k <> "UNKNOWN_ERROR" -> k <> "SUCCESS" /\ is_Some (status !! k))
            errorByStatus) by by_table.
  assert (Hword : map_Forall
            (fun k _ => k <> "SUCCESS" -> k <> "UNKNOWN_ERROR" /\ is_Some (errorByStatus !! k))
            status) by by_table.
  split.
  - intros [[msg Hname] Hne]. destruct (Hmsg name msg Hname Hne). by split.
  - intros [[code Hname] Hne]. destruct (Hword name code Hname Hne). by split.
Qed.

(** X3: every status word fits the two bytes a response ends in, and
    every class and instruction value fits the one byte of a command
    header. *)
Theorem table_values_fit :
  below 0x10000 status /\ below 0x100 cla /\ below 0x100 ins.
Proof. split; [|split]; apply below_by_table; by_table. Qed.

End common_constants_spec.

(** ** The signing input: the rest of the class *)

Module Input_more_spec.
Import hsd Input Lifecycle Input_more Input_spec Lifecycle_spec.

Section WithExternals.
Context `{Externals}.

(** X4: [fromOptions] without options, without a path or with the empty
    string for a path throws its first two assertions, a path that is
    neither a string nor an array the third, and a string that does not
    parse what the parser throws; in each case whatever else the options
    hold, and with the object left as it was. *)
Theorem fromOptions_path_checks (o : Options) (this : LedgerInput) :
  fromOptions None this =
  (Throw (AssertionError "SignInput data is required."), this) /\
  (path_given (opt_path o) = false ->
   fromOptions (Some o) this = (Throw (AssertionError "Path is required."), this)) /\
  (opt_path o = Some (PathString "") ->
   fromOptions (Some o) this = (Throw (AssertionError "Path is required."), this)) /\
  (opt_path o = Some PathOther ->
   fromOptions (Some o) this =
   (Throw (AssertionError "Path must be Array or string"), this)) /\
  (forall s e,
     opt_path o = Some (PathString s) -> s <> "" -> parsePath s = Throw e ->
     fromOptions (Some o) this = (Throw e, this)).
Proof.
  split; [reflexivity|]. unfold fromOptions.
  split; [|split; [|split]].
  - intros Hp. rewrite Hp. reflexivity.
  - intros Hp. rewrite Hp. reflexivity.
  - intros Hp. rewrite Hp. reflexivity.
  - intros s e Hp Hs He. rewrite Hp. simpl.
    apply String.eqb_neq in Hs. rewrite Hs. js_run. simpl. rewrite He. reflexivity.
Qed.

(** X5: construction from options succeeds exactly when every check
    passes: the path is an array or a string that parses, the sighash type
    passes the assertion as written, the redeem property is a Buffer or a
    script, the public key a Buffer, there is a coin, and beside a
    script-hash coin a redeem script.  The object then holds the path, the
    coin, the redeem script, the public key and the type of the options
    (SIGHASH_ALL when none is given), and nothing memoized. *)
Theorem static_fromOptions_accepts (o : Options) :
  is_ok (static_fromOptions (Some o)) = accepted o /\
  forall this,
    static_fromOptions (Some o) = Ok this ->
    match opt_path o with
    | Some (PathArray p) => path this = p
    | Some (PathString s) => parsePath s = Ok (path this)
    | _ => False
    end /\
    coin this = opt_coin o /\
    redeem this = redeem_given o /\
    publicKey this = key_given o /\
    type this = default ALL (opt_type o) /\
    _ring this = None /\ _prev this = None /\ _prevred this = None /\
    _key this = "" /\ _outpoint this = None /\ script this = None.
Proof.
  unfold static_fromOptions, fromOptions, accepted, others_accepted, path_accepted,
    type_accepted, key_accepted, redeem_accepted, coin_accepted, redeem_given,
    key_given, path_given, this_coin.
  destruct o as [opath ocoin oredeem okey otype]; simpl.
  split.
  - destruct opath as [[s| |]|]; try reflexivity;
      [destruct (String.eqb s ""); try reflexivity;
       js_run; simpl; destruct (parsePath s); try reflexivity|];
      (destruct otype as [t|]; [destruct (t =? ALL); try reflexivity|]);
      (destruct oredeem as [[]|]; try reflexivity);
      (destruct ocoin as [c|]; [|destruct okey as [[]|]; reflexivity]);
      (destruct okey as [[]|]; try reflexivity);
      js_run; simpl; destruct (isScripthash (coin_address c)); reflexivity.
  - intros this.
    destruct opath as [[s| |]|]; try discriminate;
      [destruct (String.eqb s ""); try discriminate;
       js_run; simpl; destruct (parsePath s) eqn:Hparse; try discriminate|];
      (destruct otype as [t|]; [destruct (t =? ALL); try discriminate|]);
      (destruct oredeem as [[]|]; try discriminate);
      (destruct ocoin as [c|]; try discriminate);
      (destruct okey as [[]|]; try discriminate);
      js_run; simpl; destruct (isScripthash (coin_address c)); simpl;
      intros; simplify_eq; simpl; repeat split; reflexivity.
Qed.

(** X6: [fromOptions] assigns as it goes: with an array path in the
    options, the path of the object is that array afterwards even when the
    call throws on a later check. *)
Theorem fromOptions_overwrites_path (o : Options) (p : list Z) (this : LedgerInput) :
  opt_path o = Some (PathArray p) ->
  path (snd (fromOptions (Some o) this)) = p.
Proof.
  intros Hp. unfold fromOptions, this_coin. rewrite Hp.
  destruct o as [opath ocoin oredeem okey otype]; simpl.
  (destruct otype as [t|]; [destruct (t =? ALL); try reflexivity|]);
    (destruct oredeem as [[]|]; try reflexivity);
    js_run; simpl;
    (destruct (coin this) as [c0|] eqn:Hcoin;
       [|destruct ocoin as [c0|]; try reflexivity]);
    (destruct okey as [[]|]; try reflexivity);
    simpl; rewrite ?Hcoin;
    destruct (isScripthash (coin_address c0)); simpl;
    try case_bool_decide; reflexivity.
Qed.

(** X7: an object that has a coin keeps it: [fromOptions] neither replaces
    it nor looks at the coin of the options, so the call does the same
    whatever that property holds. *)
Theorem fromOptions_ignores_second_coin (o : Options) (other : option Coin)
    (this : LedgerInput) (c : Coin) :
  coin this = Some c ->
  coin (snd (fromOptions (Some o) this)) = Some c /\
  fromOptions
    (Some {| opt_path := opt_path o; opt_coin := other; opt_redeem := opt_redeem o;
             opt_publicKey := opt_publicKey o; opt_type := opt_type o |})
    this
  = fromOptions (Some o) this.
Proof.
  intros Hcoin. unfold fromOptions, this_coin, path_given.
  destruct this; simpl in Hcoin; subst.
  destruct o as [opath ocoin oredeem okey otype]; simpl.
  destruct opath as [[s| |]|]; try (split; reflexivity);
    [destruct (String.eqb s ""); try (split; reflexivity);
     js_run; simpl; destruct (parsePath s); try (split; reflexivity)|];
    (destruct otype as [t|];
       [destruct (t =? ALL); try (split; reflexivity)|]);
    (destruct oredeem as [[]|]; try (split; reflexivity));
    (destruct okey as [[]|]; try (split; reflexivity));
    js_run; simpl;
    destruct (isScripthash (coin_address c)); simpl;
    try case_bool_decide; split; reflexivity.
Qed.

(** What any call leaves in place. *)
Lemma after_keeps (c : Call) (this : LedgerInput) :
  (forall k, coin this = Some k -> coin (after c this) = Some k) /\
  (is_Some (publicKey this) -> is_Some (publicKey (after c this))) /\
  script (after c this) = script this.
Proof.
  destruct c as [options| | | | | |network|]; simpl.
  - destruct (fromOptions_configured options this) as (Es & _ & _ & _ & Ec & Ek).
    split; [|split; [|assumption]].
    + intros k Hk. destruct Ec as [Ec|Ec]; congruence.
    + intros Hsome. destruct Ek as [Ek|Ek]; [by rewrite Ek|assumption].
  - unfold toKey, getOutpoint, this_coin. js_run.
    repeat case_match; simplify_eq/=; split_and!; naive_solver.
  - unfold getOutpoint, this_coin. js_run.
    repeat case_match; simplify_eq/=; split_and!; naive_solver.
  - unfold getPrev, getRing. js_run.
    repeat case_match; simplify_eq/=; split_and!; naive_solver.
  - unfold getPrevRedeem, getPrev, getRing, this_coin. js_run.
    repeat case_match; simplify_eq/=; split_and!; naive_solver.
  - split_and!; auto.
  - unfold getRing. js_run. repeat case_match; simplify_eq/=; split_and!; naive_solver.
  - split_and!; auto.
Qed.

(** X8: however many calls are made on an input and whether they return
    or throw, the coin it has is never replaced, a public key it has is
    never taken away, and its [script] property is never written. *)
Theorem calls_keep_coin_and_key (calls : list Call) (this : LedgerInput) :
  (forall c, coin this = Some c -> coin (after_all calls this) = Some c) /\
  (is_Some (publicKey this) -> is_Some (publicKey (after_all calls this))) /\
  script (after_all calls this) = script this.
Proof.
  revert this. induction calls as [|call calls IH]; intros this; [by auto|].
  unfold after_all in *. cbn [foldl].
  destruct (after_keeps call this) as (Hc & Hk & Hs).
  destruct (IH (after call this)) as (IHc & IHk & IHs).
  split; [|split].
  - intros c Hcoin. by apply IHc, Hc.
  - intros Hsome. by apply IHk, Hk.
  - by rewrite IHs.
Qed.

(** X9: [fromOptions] does not invalidate the memoized ring: once a ring
    is memoized beside a public key, [getRing] goes on returning it after
    any call of [fromOptions], also one that sets another public key or
    redeem script. *)
Theorem getRing_stale_after_fromOptions (options : option Options)
    (this : LedgerInput) (ring : KeyRing) (network : Network) :
  _ring this = Some ring ->
  is_Some (publicKey this) ->
  getRing network (snd (fromOptions options this)) =
  (Ok ring, snd (fromOptions options this)).
Proof.
  intros Hring Hsome.
  destruct (fromOptions_configured options this) as (_ & Er & _ & _ & _ & Ek).
  assert (Hkey : is_Some (publicKey (snd (fromOptions options this))))
    by (destruct Ek as [Ek|Ek]; [by rewrite Ek|assumption]).
  destruct Hkey as [key Hkey].
  eapply getRing_memoized; [exact Hkey|]. by rewrite Er.
Qed.

(** X10: after [refresh] the ring, the previous script, the outpoint and
    the key are computed anew from the fields as they are now, whatever was
    memoized before. *)
Theorem refresh_recomputes (this : LedgerInput) (key : list byte) (c : Coin)
    (ring0 : KeyRing) :
  publicKey this = Some key ->
  coin this = Some c ->
  script this = None ->
  fromPublic key primary = Ok ring0 ->
  let this' := snd (refresh this) in
  let ring := with_redeem (redeem this) ring0 in
  fst (getRing primary this') = Ok ring /\
  fst (getPrev this') = Ok (pubkeyhashScript ring) /\
  fst (getOutpoint this') = Ok (outpointOf c) /\
  fst (toKey this') = Ok (outpointKey (outpointOf c)).
Proof.
  intros Hkey Hcoin Hscript Hring this' ring.
  unfold this', ring, with_redeem, pubkeyhashScript.
  destruct this; simpl in *; subst.
  unfold getPrev, getRing, toKey, getOutpoint, this_coin, refresh. js_run. simpl.
  rewrite Hring. simpl.
  destruct redeem0; repeat split; reflexivity.
Qed.

Lemma fromOptions_keeps_location (options : option Options) (this : LedgerInput) :
  _key (snd (fromOptions options this)) = _key this /\
  _outpoint (snd (fromOptions options this)) = _outpoint this.
Proof.
  destruct options as [o|]; [|by split].
  unfold fromOptions, path_given, this_coin.
  destruct o as [opath ocoin oredeem okey otype]; simpl.
  destruct opath as [[s| |]|]; try (by split);
    [destruct (String.eqb s ""); try (by split);
     js_run; simpl; destruct (parsePath s); try (by split)|];
    (destruct otype as [t|]; [destruct (t =? ALL); try (by split)|]);
    (destruct oredeem as [[]|]; try (by split));
    js_run; simpl;
    (destruct (coin this) as [c0|] eqn:Hcoin;
       [|destruct ocoin as [c0|]; try (by split)]);
    (destruct okey as [[]|]; try (by split));
    simpl; rewrite ?Hcoin;
    destruct (isScripthash (coin_address c0)); simpl;
    try case_bool_decide; by split.
Qed.

Lemma located_frame (this this' : LedgerInput) :
  located this ->
  _key this' = _key this -> _outpoint this' = _outpoint this ->
  (forall k, coin this = Some k -> coin this' = Some k) ->
  located this'.
Proof.
  intros [Ho Hk] Ekey Eout Ecoin. split.
  - intros o Hmemo. rewrite Eout in Hmemo. destruct (Ho o Hmemo) as (c & Hc & ->).
    exists c. split; [by apply Ecoin|reflexivity].
  - rewrite Ekey. intros Hne. destruct (Hk Hne) as (c & Hc & Hkey).
    exists c. split; [by apply Ecoin|assumption].
Qed.

Lemma located_getOutpoint (this : LedgerInput) :
  located this -> located (snd (getOutpoint this)).
Proof.
  intros Hloc. pose proof Hloc as [Ho Hk]. unfold getOutpoint, this_coin. js_run.
  destruct (_outpoint this) as [o|] eqn:Eo; [exact Hloc|].
  destruct (coin this) as [c|] eqn:Ec; [|exact Hloc].
  simpl. split; simpl.
  - intros o ?; simplify_eq. by exists c.
  - intros Hne. destruct (Hk Hne) as (c' & Hc' & Hkey). simplify_eq. by exists c'.
Qed.

Lemma getOutpoint_located (this : LedgerInput) (c : Coin) :
  located this -> coin this = Some c ->
  fst (getOutpoint this) = Ok (outpointOf c) /\
  coin (snd (getOutpoint this)) = Some c.
Proof.
  intros [Ho Hk] Hc. unfold getOutpoint, this_coin. js_run.
  destruct (_outpoint this) as [o|] eqn:Eo.
  - destruct (Ho o eq_refl) as (c' & Hc' & ->). simplify_eq. by split.
  - rewrite Hc. by split.
Qed.

Lemma located_toKey (this : LedgerInput) :
  located this -> located (snd (toKey this)).
Proof.
  intros Hloc. pose proof (located_getOutpoint this Hloc) as Hnext.
  unfold toKey. js_run.
  destruct (String.eqb_spec (_key this) "") as [Hempty|Hne]; [|assumption].
  destruct (getOutpoint this) as [[o|e] this1] eqn:Hrun; simpl in *; [|assumption].
  destruct Hnext as [Ho Hk]. split; simpl; [assumption|].
  intros Hne. destruct (coin this) as [c|] eqn:Hc.
  - destruct (getOutpoint_located this c Hloc Hc) as [Hfst Hcoin].
    rewrite Hrun in Hfst, Hcoin. simpl in *. simplify_eq. by exists c.
  - revert Hrun. unfold getOutpoint, this_coin. js_run.
    destruct Hloc as [Ho' _].
    destruct (_outpoint this) as [o'|] eqn:Eo.
    + destruct (Ho' o' eq_refl) as (c' & Hc' & _). congruence.
    + rewrite Hc. discriminate.
Qed.

Lemma located_after (c : Call) (this : LedgerInput) :
  located this -> located (after c this).
Proof.
  intros Hloc. destruct c as [options| | | | | |network|]; simpl.
  - destruct (fromOptions_keeps_location options this) as [Ek Eo].
    destruct (after_keeps (CallFromOptions options) this) as (Hc & _).
    by eapply located_frame.
  - by apply located_toKey.
  - by apply located_getOutpoint.
  - destruct (after_keeps CallGetPrev this) as (Hc & _).
    eapply located_frame; [exact Hloc| | |exact Hc];
      unfold getPrev, getRing; js_run; repeat case_match; simplify_eq/=; reflexivity.
  - destruct (after_keeps CallGetPrevRedeem this) as (Hc & _).
    eapply located_frame; [exact Hloc| | |exact Hc];
      unfold getPrevRedeem, getPrev, getRing, this_coin; js_run;
      repeat case_match; simplify_eq/=; reflexivity.
  - assumption.
  - destruct (after_keeps (CallGetRing network) this) as (Hc & _).
    eapply located_frame; [exact Hloc| | |exact Hc];
      unfold getRing; js_run; repeat case_match; simplify_eq/=; reflexivity.
  - split; simpl; [discriminate|done].
Qed.

Lemma reachable_located (this : LedgerInput) : reachable this -> located this.
Proof.
  induction 1 as [|c this Hreach IH].
  - split; simpl; [discriminate|done].
  - by apply located_after.
Qed.

(** X11: on every reachable input the outpoint and the key are those of
    its coin: [getOutpoint] returns the outpoint made of the coin's hash and
    index and [toKey] the key of that outpoint, memoized or not; without a
    coin both throw a TypeError and leave the object as it is. *)
Theorem getOutpoint_and_toKey_follow_coin (this : LedgerInput) :
  reachable this ->
  match coin this with
  | Some c =>
    fst (getOutpoint this) = Ok (outpointOf c) /\
    fst (toKey this) = Ok (outpointKey (outpointOf c))
  | None =>
    getOutpoint this = (Throw (TypeError "Cannot read properties of null"), this) /\
    toKey this = (Throw (TypeError "Cannot read properties of null"), this)
  end.
Proof.
  intros Hreach. pose proof (reachable_located this Hreach) as Hloc.
  pose proof Hloc as [Ho Hk].
  destruct (coin this) as [c|] eqn:Hc.
  - destruct (getOutpoint_located this c Hloc Hc) as [Hout Hcoin].
    split; [assumption|].
    unfold toKey. js_run.
    destruct (String.eqb_spec (_key this) "") as [Hempty|Hne].
    + destruct (getOutpoint this) as [[o|e] this1]; simpl in *; [|discriminate].
      simplify_eq. reflexivity.
    + destruct (Hk Hne) as (c' & Hc' & Hkey). simplify_eq. simpl. by rewrite Hkey.
  - assert (Eo : _outpoint this = None).
    { destruct (_outpoint this) as [o|] eqn:Eo; [|reflexivity].
      destruct (Ho o eq_refl) as (c & Hc' & _). congruence. }
    assert (Ek : _key this = "").
    { destruct (String.eqb_spec (_key this) "") as [Hempty|Hne]; [assumption|].
      destruct (Hk Hne) as (c & Hc' & _). congruence. }
    unfold toKey, getOutpoint, this_coin. js_run. rewrite Eo, Ek, Hc. simpl.
    rewrite Eo, Hc. by split.
Qed.

End WithExternals.

End Input_more_spec.

(** ** The protocol engine: every way a run can end *)

Module Client_more_spec.
Import hsd Input Lifecycle Client Client_more.
Import Input_spec Lifecycle_spec bufio_spec util_spec Client_spec.

Section Engine.
Context `{Externals}.
Context `{bufio.Writable Outpoint} `{bufio.Writable Address} `{bufio.Writable Covenant}.
Variables MAX_TX_PACKET MAX_SCRIPT_PACKET : positive.
Variable parseTX_command : option (list byte) -> bool -> Result (list byte).
Variable getInputSignature_command :
  option LedgerInput -> option Input -> option (list byte) -> bool -> Result (list byte).
Variable getInputSignature_response : list byte -> bool -> Result (list byte).
Variable device : Wire -> Result (list byte).

Local Abbreviation acknowledgement := (Client_more.acknowledgement device).
Local Abbreviation signature_reply :=
  (Client_more.signature_reply getInputSignature_response device).
Local Abbreviation send_chunk :=
  (fun msg : list byte =>
     Js.bind (Js.lift (parseTX_command (Some msg) false)) (fun packet =>
     Js.bind (exchange device packet) (fun res =>
     Js.lift (apdu.parseTX_response res)))).
Local Abbreviation run_parseTX := (parseTX MAX_TX_PACKET parseTX_command device).
Local Abbreviation run_getInputSignature :=
  (getInputSignature MAX_SCRIPT_PACKET getInputSignature_command
     getInputSignature_response device).

Lemma acknowledgement_shift wire p packets i :
  acknowledgement (wire ++ [p]) packets i = acknowledgement wire (p :: packets) (S i).
Proof. unfold Client_more.acknowledgement. by rewrite reply_shift. Qed.

(** One round trip of the loop of [parseTX], told by how it ends. *)
Lemma send_chunk_outcome (msg : list byte) p packets wire :
  parseTX_command (Some msg) false = Ok p ->
  Js.bind (Js.lift (parseTX_command (Some msg) false)) (fun packet =>
    Js.bind (exchange device packet) (fun res =>
    Js.lift (apdu.parseTX_response res))) wire =
  (acknowledgement wire (p :: packets) 0, wire ++ [p]).
Proof.
  intros Hp. rewrite (send_chunk_last _ _ _ _ _ Hp).
  unfold Client_more.acknowledgement. rewrite reply_first.
  destruct (device (wire ++ [p])) as [res|e]; [|reflexivity].
  destruct (apdu.parseTX_response res) as [[]|]; reflexivity.
Qed.

Lemma first_chunk_outcome (msg : list byte) p packets wire (k : M Wire unit) :
  parseTX_command (Some msg) true = Ok p ->
  Js.bind (Js.lift (parseTX_command (Some msg) true)) (fun packet =>
    Js.bind (exchange device packet) (fun res =>
    Js.bind (Js.lift (apdu.parseTX_response res)) (fun _ => k))) wire =
  match acknowledgement wire (p :: packets) 0 with
  | Ok _ => k (wire ++ [p])
  | Throw e => (Throw e, wire ++ [p])
  end.
Proof.
  intros Hp. rewrite (send_chunk_step _ _ _ _ _ _ _ Hp).
  unfold Client_more.acknowledgement. rewrite reply_first.
  destruct (device (wire ++ [p])) as [res|e]; reflexivity.
Qed.

Lemma rest_cons_outcome (msg : list byte) msgs p packets wire :
  parseTX_command (Some msg) false = Ok p ->
  Js.for_of (msg :: msgs) send_chunk wire =
  match acknowledgement wire (p :: packets) 0 with
  | Ok _ => Js.for_of msgs send_chunk (wire ++ [p])
  | Throw e => (Throw e, wire ++ [p])
  end.
Proof.
  intros Hp. cbn [Js.for_of]. unfold Js.bind at 1.
  rewrite (send_chunk_outcome _ _ packets _ Hp).
  destruct (acknowledgement wire (p :: packets) 0) as [[]|e]; reflexivity.
Qed.

(** The loop over the later chunks: what is written is a prefix of the
    commands, and all of them when the loop returns. *)
Lemma rest_prefix (msgs : list (list byte)) :
  forall (packets : list (list byte)) (wire : Wire),
    map (fun msg => parseTX_command (Some msg) false) msgs = Ok <$> packets ->
    exists k,
      (k <= length packets)%nat /\
      snd (Js.for_of msgs send_chunk wire) = wire ++ take k packets /\
      (fst (Js.for_of msgs send_chunk wire) = Ok tt -> k = length packets).
Proof.
  induction msgs as [|msg msgs IH]; intros packets wire Hcmd.
  - destruct packets; [|discriminate]. exists 0%nat. simpl.
    split; [lia|]. split; [by rewrite app_nil_r|done].
  - destruct packets as [|p packets]; [discriminate|].
    injection Hcmd as Hp Hcmd.
    rewrite (rest_cons_outcome _ _ _ packets _ Hp).
    destruct (acknowledgement wire (p :: packets) 0) as [[]|e].
    + destruct (IH packets (wire ++ [p]) Hcmd) as (k & Hk & Hwire & Hall).
      exists (S k). simpl. split; [lia|]. split.
      * rewrite Hwire. by rewrite <- app_assoc.
      * intros Hok. f_equal. by apply Hall.
    + exists 1%nat. simpl. split; [lia|]. split; [reflexivity|discriminate].
Qed.

(** The loop over the later chunks, stopped by the round trip that fails. *)
Lemma rest_fails (msgs : list (list byte)) :
  forall (packets : list (list byte)) (wire : Wire) (k : nat) (e : Error),
    map (fun msg => parseTX_command (Some msg) false) msgs = Ok <$> packets ->
    (k < length packets)%nat ->
    (forall i, (i < k)%nat -> acknowledgement wire packets i = Ok tt) ->
    acknowledgement wire packets k = Throw e ->
    Js.for_of msgs send_chunk wire = (Throw e, wire ++ take (S k) packets).
Proof.
  induction msgs as [|msg msgs IH]; intros packets wire k e Hcmd Hk Hack Hfail.
  - destruct packets; [simpl in Hk; lia|discriminate].
  - destruct packets as [|p packets]; [discriminate|].
    injection Hcmd as Hp Hcmd.
    rewrite (rest_cons_outcome _ _ _ packets _ Hp).
    destruct k as [|k].
    + rewrite Hfail. reflexivity.
    + rewrite (Hack 0%nat) by lia.
      rewrite (IH packets (wire ++ [p]) k e); try assumption.
      * by rewrite <- app_assoc.
      * simpl in Hk. lia.
      * intros i Hi. rewrite acknowledgement_shift. apply Hack. lia.
      * by rewrite acknowledgement_shift.
Qed.

Lemma preamble_chunks mtx :
  exists chunk rest,
    util.splitBuffer (preambleLayout mtx) MAX_TX_PACKET = chunk :: rest.
Proof.
  destruct (util.splitBuffer (preambleLayout mtx) MAX_TX_PACKET) as [|chunk rest] eqn:E;
    [|by eauto].
  apply (f_equal length) in E. rewrite splitBuffer_length in E.
  change (length (@nil (list byte))) with 0%nat in E.
  assert (Hpos : (0 < length (preambleLayout mtx))%nat).
  { unfold preambleLayout, bufio.u32. rewrite !length_app, !length_le_bytes. lia. }
  pose proof (ceil_div_pos (length (preambleLayout mtx)) MAX_TX_PACKET Hpos). lia.
Qed.

(** X12: whatever the device answers, [parseTX] writes the commands of the
    chunks in their order and nothing else: the wire grows by a non-empty
    prefix of them, and by all of them whenever the method returns. *)
Theorem parseTX_writes_prefix (mtx : MTX) (ledgerInputByKey : gmap string LedgerInput)
    (wire : Wire) (packets : list (list byte)) :
  txPackets parseTX_command (util.splitBuffer (preambleLayout mtx) MAX_TX_PACKET)
  = Ok <$> packets ->
  exists k,
    (1 <= k <= length packets)%nat /\
    snd (run_parseTX mtx ledgerInputByKey wire) = wire ++ take k packets /\
    (fst (run_parseTX mtx ledgerInputByKey wire) = Ok tt -> k = length packets).
Proof.
  intros Hcmd. destruct (preamble_chunks mtx) as (chunk & rest & Hchunks).
  rewrite Hchunks in Hcmd.
  rewrite (parseTX_chunks _ _ _ _ _ _ _ _ Hchunks).
  rewrite txPackets_cons in Hcmd.
  destruct packets as [|p packets]; [discriminate|].
  injection Hcmd as Hp Hcmd.
  rewrite (first_chunk_outcome _ _ packets _ _ Hp).
  destruct (acknowledgement wire (p :: packets) 0) as [[]|e].
  - destruct (rest_prefix rest packets (wire ++ [p]) Hcmd) as (k & Hk & Hwire & Hall).
    exists (S k). simpl. split; [lia|]. split.
    + rewrite Hwire. by rewrite <- app_assoc.
    + intros Hok. f_equal. by apply Hall.
  - exists 1%nat. simpl. split; [lia|]. split; [reflexivity|discriminate].
Qed.

(** X13: a round trip of [parseTX] that fails for any reason, the device
    not answering or its response not parsing as a success acknowledgement,
    ends the method with that very error, once the chunks before were
    acknowledged; the failed chunk is the last thing written. *)
Theorem parseTX_stops_at_first_failure (mtx : MTX)
    (ledgerInputByKey : gmap string LedgerInput) (wire : Wire)
    (packets : list (list byte)) (k : nat) (e : Error) :
  txPackets parseTX_command (util.splitBuffer (preambleLayout mtx) MAX_TX_PACKET)
  = Ok <$> packets ->
  (k < length packets)%nat ->
  (forall i, (i < k)%nat -> acknowledgement wire packets i = Ok tt) ->
  acknowledgement wire packets k = Throw e ->
  run_parseTX mtx ledgerInputByKey wire = (Throw e, wire ++ take (S k) packets).
Proof.
  intros Hcmd Hk Hack Hfail. destruct (preamble_chunks mtx) as (chunk & rest & Hchunks).
  rewrite Hchunks in Hcmd.
  rewrite (parseTX_chunks _ _ _ _ _ _ _ _ Hchunks).
  rewrite txPackets_cons in Hcmd.
  destruct packets as [|p packets]; [discriminate|].
  injection Hcmd as Hp Hcmd.
  rewrite (first_chunk_outcome _ _ packets _ _ Hp).
  destruct k as [|k].
  - rewrite Hfail. reflexivity.
  - rewrite (Hack 0%nat) by lia.
    rewrite (rest_fails rest packets (wire ++ [p]) k e); try assumption.
    + by rewrite <- app_assoc.
    + simpl in Hk. lia.
    + intros i Hi. rewrite acknowledgement_shift. apply Hack. lia.
    + by rewrite acknowledgement_shift.
Qed.

(** X14: when the first command cannot be built, [parseTX] throws what
    the builder throws and writes nothing to the device. *)
Theorem parseTX_unbuilt_writes_nothing (mtx : MTX)
    (ledgerInputByKey : gmap string LedgerInput) (wire : Wire) (e : Error) :
  parseTX_command (head (util.splitBuffer (preambleLayout mtx) MAX_TX_PACKET)) true
  = Throw e ->
  run_parseTX mtx ledgerInputByKey wire = (Throw e, wire).
Proof.
  intros Hcmd. unfold parseTX. unfold Js.bind at 1. unfold Js.lift at 1.
  rewrite renderPreamble_layout. cbn beta iota zeta.
  unfold Js.bind at 1. unfold Js.lift at 1. by rewrite Hcmd.
Qed.

(** X15: the preamble is never shorter than eleven bytes, so the buffer
    [parseTX] cuts is never empty; for a transaction without inputs and
    outputs it is the version, the locktime and three zero counts. *)
Theorem preamble_at_least_eleven_bytes (mtx : MTX) :
  (11 <= preambleSize mtx)%nat /\
  (inputs mtx = [] -> outputs mtx = [] ->
   preambleSize mtx = 11%nat /\
   renderPreamble mtx =
   Ok (bufio.u32 (version mtx) ++ bufio.u32 (locktime mtx) ++ [x00; x00; x00])).
Proof.
  split.
  - rewrite preambleSize_layout. unfold preambleLayout, bufio.u32.
    rewrite !length_app, !length_le_bytes, !length_varint.
    unfold bufio.sizeVarint. repeat case_match; lia.
  - intros Hin Hout. split.
    + unfold preambleSize, outputsSize. rewrite Hin, Hout. reflexivity.
    + rewrite renderPreamble_layout. unfold preambleLayout, outputsLayout.
      rewrite Hin, Hout. reflexivity.
Qed.

Local Abbreviation send_middle :=
  (fun msg : list byte =>
     Js.bind (Js.lift (getInputSignature_command None None (Some msg) false)) (fun packet =>
     Js.bind (on_wire (exchange device packet)) (fun res =>
     Js.bind (Js.lift (getInputSignature_response res true)) (fun _ =>
     Js.ret tt)))).

(** A round trip of [getInputSignature] whose response is read as an
    acknowledgement, told by how it ends. *)
Lemma signature_ack_outcome {A} (cmd : Result (list byte)) p packets ledgerInput
    (wire : Wire) (k : M (LedgerInput * Wire) A) :
  cmd = Ok p ->
  Js.bind (Js.lift cmd) (fun packet =>
    Js.bind (on_wire (exchange device packet)) (fun res =>
    Js.bind (Js.lift (getInputSignature_response res true)) (fun _ => k)))
    (ledgerInput, wire) =
  match signature_reply true wire (p :: packets) 0 with
  | Ok _ => k (ledgerInput, wire ++ [p])
  | Throw e => (Throw e, (ledgerInput, wire ++ [p]))
  end.
Proof.
  intros ->. unfold Client_more.signature_reply. rewrite reply_first.
  unfold Js.bind, Js.lift, on_wire, exchange. simpl.
  destruct (device (wire ++ [p])) as [res|e]; [|reflexivity].
  destruct (getInputSignature_response res true); reflexivity.
Qed.

Lemma signature_reply_shift more wire p packets i :
  signature_reply more (wire ++ [p]) packets i =
  signature_reply more wire (p :: packets) (S i).
Proof. unfold Client_more.signature_reply. by rewrite reply_shift. Qed.

Lemma signature_reply_app more wire packets later i :
  (i < length packets)%nat ->
  signature_reply more wire (packets ++ later) i = signature_reply more wire packets i.
Proof.
  intros Hi. unfold Client_more.signature_reply, reply.
  by rewrite take_app_le by lia.
Qed.

Lemma middle_cons_outcome (msg : list byte) msgs p packets ledgerInput (wire : Wire) :
  getInputSignature_command None None (Some msg) false = Ok p ->
  Js.for_of (msg :: msgs) send_middle (ledgerInput, wire) =
  match signature_reply true wire (p :: packets) 0 with
  | Ok _ => Js.for_of msgs send_middle (ledgerInput, wire ++ [p])
  | Throw e => (Throw e, (ledgerInput, wire ++ [p]))
  end.
Proof.
  intros Hp. cbn [Js.for_of]. unfold Js.bind at 1.
  rewrite (signature_ack_outcome _ p packets _ _ _ Hp).
  destruct (signature_reply true wire (p :: packets) 0); reflexivity.
Qed.

(** The loop over the middle chunks writes a prefix of their commands,
    and all of them when it returns. *)
Lemma middle_prefix (msgs : list (list byte)) :
  forall (packets : list (list byte)) (ledgerInput : LedgerInput) (wire : Wire),
    map (fun msg => getInputSignature_command None None (Some msg) false) msgs
    = Ok <$> packets ->
    exists k,
      (k <= length packets)%nat /\
      snd (Js.for_of msgs send_middle (ledgerInput, wire)) =
      (ledgerInput, wire ++ take k packets) /\
      (fst (Js.for_of msgs send_middle (ledgerInput, wire)) = Ok tt ->
       k = length packets).
Proof.
  induction msgs as [|msg msgs IH]; intros packets ledgerInput wire Hcmd.
  - destruct packets; [|discriminate]. exists 0%nat. simpl.
    split; [lia|]. split; [by rewrite app_nil_r|done].
  - destruct packets as [|p packets]; [discriminate|].
    injection Hcmd as Hp Hcmd.
    rewrite (middle_cons_outcome _ _ _ packets _ _ Hp).
    destruct (signature_reply true wire (p :: packets) 0) as [ack|e].
    + destruct (IH packets ledgerInput (wire ++ [p]) Hcmd) as (k & Hk & Hwire & Hall).
      exists (S k). split; [simpl; lia|]. split.
      * etransitivity; [exact Hwire|]. by rewrite <- app_assoc.
      * intros Hok. simpl. f_equal. apply Hall. exact Hok.
    + exists 1%nat. simpl. split; [lia|]. split; [reflexivity|discriminate].
Qed.

(** The loop over the middle chunks, stopped by the round trip that
    fails. *)
Lemma middle_fails (msgs : list (list byte)) :
  forall (packets : list (list byte)) (ledgerInput : LedgerInput) (wire : Wire)
         (k : nat) (e : Error),
    map (fun msg => getInputSignature_command None None (Some msg) false) msgs
    = Ok <$> packets ->
    (k < length packets)%nat ->
    (forall i, (i < k)%nat -> is_ok (signature_reply true wire packets i) = true) ->
    signature_reply true wire packets k = Throw e ->
    Js.for_of msgs send_middle (ledgerInput, wire) =
    (Throw e, (ledgerInput, wire ++ take (S k) packets)).
Proof.
  induction msgs as [|msg msgs IH]; intros packets ledgerInput wire k e Hcmd Hk Hack Hfail.
  - destruct packets; [simpl in Hk; lia|discriminate].
  - destruct packets as [|p packets]; [discriminate|].
    injection Hcmd as Hp Hcmd.
    rewrite (middle_cons_outcome _ _ _ packets _ _ Hp).
    destruct k as [|k].
    + rewrite Hfail. reflexivity.
    + pose proof (Hack 0%nat ltac:(lia)) as Hfirst.
      destruct (signature_reply true wire (p :: packets) 0) as [ack|e0]; [|discriminate].
      replace (wire ++ take (S (S k)) (p :: packets))
        with ((wire ++ [p]) ++ take (S k) packets) by (by rewrite <- app_assoc).
      apply IH; try assumption.
      * simpl in Hk. lia.
      * intros i Hi. rewrite signature_reply_shift. apply Hack. lia.
      * by rewrite signature_reply_shift.
Qed.

(** [getInputSignature] once the script is fetched, rendered and cut. *)
Lemma getInputSignature_chunks hsdInput ledgerInput ledgerInput' raw (wire : Wire)
    chunk rest :
  getPrevRedeem ledgerInput = (Ok (Some raw), ledgerInput') ->
  util.splitBuffer (varBytes raw) MAX_SCRIPT_PACKET = chunk :: rest ->
  run_getInputSignature hsdInput (ledgerInput, wire) =
  Js.bind (Js.lift (getInputSignature_command (Some ledgerInput') (Some hsdInput)
                      (Some chunk) true)) (fun packet =>
    Js.bind (on_wire (exchange device packet)) (fun res =>
    if (length rest =? 0)%nat
    then Js.lift (getInputSignature_response res false)
    else
      Js.bind (Js.lift (getInputSignature_response res true)) (fun _ =>
      Js.bind (Js.for_of (removelast rest) send_middle) (fun _ =>
      Js.bind (Js.lift (getInputSignature_command None None (last rest) false))
        (fun packet =>
      Js.bind (on_wire (exchange device packet)) (fun res =>
      Js.lift (getInputSignature_response res false)))))))
    (ledgerInput', wire).
Proof.
  intros Hraw Hchunks. unfold getInputSignature.
  unfold Js.bind at 1. unfold on_input at 1. cbn [fst snd]. rewrite Hraw.
  unfold Js.bind at 1. unfold Js.ret at 1.
  unfold Js.bind at 1. unfold Js.lift at 1. rewrite render_varBytes.
  cbn beta iota zeta. rewrite Hchunks.
  unfold Js.bind at 1. unfold Js.gets at 1. cbn [fst head tail]. reflexivity.
Qed.

Lemma script_chunks raw :
  exists chunk rest,
    util.splitBuffer (varBytes raw) MAX_SCRIPT_PACKET = chunk :: rest.
Proof.
  destruct (util.splitBuffer (varBytes raw) MAX_SCRIPT_PACKET) as [|chunk rest] eqn:E;
    [|by eauto].
  apply (f_equal length) in E. rewrite splitBuffer_length in E.
  change (length (@nil (list byte))) with 0%nat in E.
  pose proof (ceil_div_pos (length (varBytes raw)) MAX_SCRIPT_PACKET
                (varBytes_nonempty raw)). lia.
Qed.

(** When the script cannot be had, nothing is written. *)
Lemma getInputSignature_without_script hsdInput ledgerInput ledgerInput' (wire : Wire) e :
  getPrevRedeem ledgerInput = (Throw e, ledgerInput') ->
  run_getInputSignature hsdInput (ledgerInput, wire) = (Throw e, (ledgerInput', wire)).
Proof.
  intros Hraw. unfold getInputSignature.
  unfold Js.bind at 1. unfold on_input at 1. cbn [fst snd]. by rewrite Hraw.
Qed.

(** X16: on a reachable input whose coin is not script-hash and whose
    public key is missing, [getInputSignature] throws the LedgerError of
    [getRing] before anything is written to the device, and leaves the
    input as it was. *)
Theorem getInputSignature_needs_public_key (hsdInput : Input)
    (ledgerInput : LedgerInput) (c : Coin) (wire : Wire) :
  reachable ledgerInput ->
  coin ledgerInput = Some c ->
  isScripthash (coin_address c) = false ->
  publicKey ledgerInput = None ->
  run_getInputSignature hsdInput (ledgerInput, wire) =
  (Throw (LedgerError "Cannot return ring without public key" None),
   (ledgerInput, wire)).
Proof.
  intros Hreach Hcoin Hsh Hkey.
  apply getInputSignature_without_script.
  destruct (reachable_coherent _ Hreach) as (Hs & Hk & Hr & Hp & Hv).
  assert (Eprev : _prev ledgerInput = None).
  { destruct (_prev ledgerInput) as [prev|] eqn:E; [|reflexivity].
    destruct (Hp _ eq_refl) as (ring & Hring & _). rewrite Hk in Hring; done. }
  assert (Ered : _prevred ledgerInput = None).
  { destruct (_prevred ledgerInput) as [v|] eqn:E; [|reflexivity].
    destruct (Hv _ eq_refl) as (c' & Hc' & Hrest). simplify_eq.
    destruct (Hrest Hsh) as [[k Hsome] _]. congruence. }
  unfold getPrevRedeem, getPrev, getRing, this_coin. js_run.
  rewrite Ered, Hcoin, Hsh. simpl. rewrite Eprev, Hs, Hkey. reflexivity.
Qed.

(** X17: on an input with a script-hash coin, no redeem script and
    nothing memoized, [getPrevRedeem] hands out [null] and
    [getInputSignature] throws a TypeError on it before anything is
    written to the device. *)
Theorem getInputSignature_null_redeem (hsdInput : Input)
    (ledgerInput : LedgerInput) (c : Coin) (wire : Wire) :
  coin ledgerInput = Some c ->
  isScripthash (coin_address c) = true ->
  redeem ledgerInput = None ->
  _prevred ledgerInput = None ->
  getPrevRedeem ledgerInput = (Ok None, ledgerInput) /\
  run_getInputSignature hsdInput (ledgerInput, wire) =
  (Throw (TypeError "Cannot read properties of null"), (ledgerInput, wire)).
Proof.
  intros Hcoin Hsh Hredeem Hmemo.
  assert (Hsame : set__prevred None ledgerInput = ledgerInput)
    by (destruct ledgerInput; simpl in *; subst; reflexivity).
  assert (Hraw : getPrevRedeem ledgerInput = (Ok None, ledgerInput)).
  { unfold getPrevRedeem, this_coin. js_run. rewrite Hmemo, Hcoin, Hsh. simpl.
    rewrite Hredeem. simpl. by rewrite Hsame. }
  split; [exact Hraw|].
  unfold getInputSignature.
  unfold Js.bind at 1. unfold on_input at 1. cbn [fst snd]. rewrite Hraw.
  reflexivity.
Qed.

(** X18: when a response that [getInputSignature] reads as an
    acknowledgement fails, be it the device not answering or the response
    not parsing, the method throws that error once the chunks before were
    acknowledged, and the failed chunk is the last thing written: the later
    chunks, the last one among them, are never sent. *)
Theorem getInputSignature_stops_at_failed_ack (hsdInput : Input)
    (ledgerInput ledgerInput' : LedgerInput) (raw : Script) (wire : Wire)
    (packets : list (list byte)) (k : nat) (e : Error) :
  getPrevRedeem ledgerInput = (Ok (Some raw), ledgerInput') ->
  sigPackets getInputSignature_command ledgerInput' hsdInput
    (util.splitBuffer (varBytes raw) MAX_SCRIPT_PACKET) = Ok <$> packets ->
  (S k < length packets)%nat ->
  (forall i, (i < k)%nat -> is_ok (signature_reply true wire packets i) = true) ->
  signature_reply true wire packets k = Throw e ->
  run_getInputSignature hsdInput (ledgerInput, wire) =
  (Throw e, (ledgerInput', wire ++ take (S k) packets)).
Proof.
  intros Hraw Hcmd Hk Hack Hfail.
  destruct (script_chunks raw) as (chunk & rest & Hchunks).
  rewrite Hchunks in Hcmd.
  rewrite (getInputSignature_chunks _ _ _ _ _ _ _ Hraw Hchunks).
  rewrite sigPackets_cons in Hcmd.
  destruct packets as [|p packets]; [discriminate|].
  injection Hcmd as Hp Hcmd.
  assert (Hrest : rest <> []).
  { intros ->. destruct packets; [simpl in Hk; lia|discriminate]. }
  destruct (exists_last Hrest) as (middle & final & ->).
  replace (length (middle ++ [final]) =? 0)%nat with false
    by (rewrite length_app; simpl; symmetry; apply Nat.eqb_neq; lia).
  cbn beta iota.
  rewrite (signature_ack_outcome _ p packets _ _ _ Hp).
  rewrite map_app in Hcmd. symmetry in Hcmd.
  apply fmap_app_inv in Hcmd as (pmiddle & plast & Hmiddle & Hlast & ->).
  destruct plast as [|plast [|? ?]]; try discriminate.
  assert (Hlenmid : length pmiddle = length middle).
  { apply (f_equal length) in Hmiddle. by rewrite length_map, length_fmap in Hmiddle. }
  simpl in Hk. rewrite length_app in Hk. simpl in Hk.
  destruct k as [|k].
  - rewrite Hfail. reflexivity.
  - pose proof (Hack 0%nat ltac:(lia)) as Hfirst.
    destruct (signature_reply true wire (p :: pmiddle ++ [plast]) 0) as [ack|e0];
      [|discriminate].
    rewrite removelast_last. unfold Js.bind at 1.
    match goal with
    | |- context [Js.for_of middle ?body ?st] =>
      assert (Hloop : Js.for_of middle body st =
                (Throw e, (ledgerInput', (wire ++ [p]) ++ take (S k) pmiddle)))
    end.
    { apply middle_fails; [assumption|lia| |].
      - intros i Hi. rewrite signature_reply_shift.
        rewrite <- (signature_reply_app true wire (p :: pmiddle) [plast] (S i))
          by (simpl; lia).
        apply Hack. lia.
      - rewrite signature_reply_shift.
        rewrite <- (signature_reply_app true wire (p :: pmiddle) [plast] (S k))
          by (simpl; lia).
        exact Hfail. }
    rewrite Hloop. rewrite <- app_assoc. simpl.
    by rewrite take_app_le by lia.
Qed.

(** X19: whatever the device answers, [getInputSignature] writes the
    commands of the chunks in their order and nothing else: the wire grows
    by a non-empty prefix of them, and by all of them whenever the method
    returns; the input changes only by what [getPrevRedeem] memoizes. *)
Theorem getInputSignature_writes_prefix (hsdInput : Input)
    (ledgerInput ledgerInput' : LedgerInput) (raw : Script) (wire : Wire)
    (packets : list (list byte)) :
  getPrevRedeem ledgerInput = (Ok (Some raw), ledgerInput') ->
  sigPackets getInputSignature_command ledgerInput' hsdInput
    (util.splitBuffer (varBytes raw) MAX_SCRIPT_PACKET) = Ok <$> packets ->
  exists k,
    (1 <= k <= length packets)%nat /\
    snd (run_getInputSignature hsdInput (ledgerInput, wire)) =
    (ledgerInput', wire ++ take k packets) /\
    (is_ok (fst (run_getInputSignature hsdInput (ledgerInput, wire))) = true ->
     k = length packets).
Proof.
  intros Hraw Hcmd.
  destruct (script_chunks raw) as (chunk & rest & Hchunks).
  rewrite Hchunks in Hcmd.
  rewrite (getInputSignature_chunks _ _ _ _ _ _ _ Hraw Hchunks).
  rewrite sigPackets_cons in Hcmd.
  destruct packets as [|p packets]; [discriminate|].
  injection Hcmd as Hp Hcmd.
  destruct (decide (rest = [])) as [->|Hrest].
  - destruct packets; [|discriminate]. exists 1%nat.
    unfold Js.bind, Js.lift, on_wire, exchange. simpl. rewrite Hp. simpl.
    destruct (device (wire ++ [p])) as [res|e]; simpl;
      [destruct (getInputSignature_response res false)|]; simpl;
      (split; [lia|]); split; done.
  - destruct (exists_last Hrest) as (middle & final & ->).
    replace (length (middle ++ [final]) =? 0)%nat with false
      by (rewrite length_app; simpl; symmetry; apply Nat.eqb_neq; lia).
    cbn beta iota.
    rewrite (signature_ack_outcome _ p packets _ _ _ Hp).
    rewrite map_app in Hcmd. symmetry in Hcmd.
    apply fmap_app_inv in Hcmd as (pmiddle & plast & Hmiddle & Hlast & ->).
    destruct plast as [|plast [|? ?]]; try discriminate.
    injection Hlast as Hlast.
    destruct (signature_reply true wire (p :: pmiddle ++ [plast]) 0) as [ack|e0].
    + rewrite removelast_last, last_snoc.
      match goal with
      | |- context [Js.bind (Js.for_of middle ?body) ?next ?st] =>
        assert (Htail : Js.bind (Js.for_of middle body) next st =
                  match Js.for_of middle body st with
                  | (Ok a, st') => next a st'
                  | (Throw e, st') => (Throw e, st')
                  end) by reflexivity;
        rewrite Htail; clear Htail
      end.
      destruct (middle_prefix middle pmiddle ledgerInput' (wire ++ [p]) Hmiddle)
        as (k & Hk & Hwire & Hall).
      match goal with
      | |- context [Js.for_of middle ?body ?st] =>
        destruct (Js.for_of middle body st) as [[[]|e1] st1] eqn:Hrun
      end;
        (assert (Hst : st1 = (ledgerInput', (wire ++ [p]) ++ take k pmiddle))
           by (etransitivity; [exact (eq_sym (f_equal snd Hrun))|exact Hwire]));
        subst st1.
      * assert (k = length pmiddle) as -> by (apply Hall; exact (f_equal fst Hrun)).
        exists (length (p :: pmiddle ++ [plast])). rewrite !firstn_all.
        split; [simpl; lia|].
        unfold Js.bind, Js.lift, on_wire, exchange. simpl. rewrite Hlast. simpl.
        rewrite <- !app_assoc. simpl.
        destruct (device (wire ++ p :: pmiddle ++ [plast])) as [res|e]; simpl;
          [destruct (getInputSignature_response res false)|]; simpl;
          split; done.
      * exists (S k). simpl. split; [rewrite length_app; lia|].
        split; [|discriminate].
        rewrite <- app_assoc. simpl. by rewrite take_app_le by lia.
    + exists 1%nat. simpl. split; [lia|]. split; [reflexivity|discriminate].
Qed.

End Engine.

End Client_more_spec.

(** ** lib/ledger/client.js: the public key query *)

Module Client_queries_spec.
Import hsd Input Client Client_queries.

Section Queries.
Context `{Externals}.
Variable network : Network.
Variable getPublicKey_command : list Z -> KeyOptions -> Result (list byte).
Variable KeyData : Type.
Variable getPublicKey_response : list byte -> Result KeyData.
Variable device : Wire -> Result (list byte).

Local Abbreviation run_getPublicKey :=
  (getPublicKey network getPublicKey_command KeyData getPublicKey_response device).

(** [getPublicKey] once the path is settled. *)
Lemma getPublicKey_with_path path p given (wire : Wire) :
  path_indices path = Ok p ->
  run_getPublicKey path (given, wire) =
  match getPublicKey_command p (set_network network (default no_options given)) with
  | Ok packet =>
    (match device (wire ++ [packet]) with
     | Ok buf => getPublicKey_response buf
     | Throw e => Throw e
     end, (set_network network <$> given, wire ++ [packet]))
  | Throw e => (Throw e, (set_network network <$> given, wire))
  end.
Proof.
  intros Hpath. unfold getPublicKey.
  destruct path as [s|q|]; simpl in Hpath; [|injection Hpath as ->|discriminate].
  - unfold Js.bind at 1. unfold Js.bind at 1. unfold Js.lift at 1. rewrite Hpath.
    unfold Js.bind, Js.ret, Js.gets, Js.modify, Js.lift, on_caller_wire, exchange.
    simpl. destruct given; simpl;
      (destruct (getPublicKey_command p _); [|reflexivity]);
      simpl; destruct (device _); reflexivity.
  - unfold Js.bind, Js.ret, Js.gets, Js.modify, Js.lift, on_caller_wire, exchange.
    simpl. destruct given; simpl;
      (destruct (getPublicKey_command p _); [|reflexivity]);
      simpl; destruct (device _); reflexivity.
Qed.

(** X20: a path that is neither an array nor a string that parses makes
    [getPublicKey] throw before it touches the caller's options object or
    writes anything to the device. *)
Theorem getPublicKey_bad_path_writes_nothing (path : PathValue)
    (given : option KeyOptions) (wire : Wire) (e : Error) :
  path_indices path = Throw e ->
  run_getPublicKey path (given, wire) = (Throw e, (given, wire)).
Proof.
  intros Hpath. unfold getPublicKey.
  destruct path as [s|q|]; simpl in Hpath; [|discriminate|injection Hpath as <-].
  - unfold Js.bind at 1. unfold Js.bind at 1. unfold Js.lift at 1. by rewrite Hpath.
  - reflexivity.
Qed.

(** X21: the network the caller put into the options has no effect:
    [getPublicKey] overwrites it with the client's own before the command is
    built, so the result and what is written to the device are the same
    whatever it was. *)
Theorem getPublicKey_ignores_callers_network (path : PathValue)
    (options : KeyOptions) (theirs : Network) (wire : Wire) :
  fst (run_getPublicKey path (Some (set_network theirs options), wire)) =
  fst (run_getPublicKey path (Some options, wire)) /\
  snd (snd (run_getPublicKey path (Some (set_network theirs options), wire))) =
  snd (snd (run_getPublicKey path (Some options, wire))).
Proof.
  destruct (path_indices path) as [p|e] eqn:Hpath.
  - rewrite !(getPublicKey_with_path _ _ _ _ Hpath). simpl.
    change (set_network network (set_network theirs options))
      with (set_network network options).
    destruct (getPublicKey_command p _); split; reflexivity.
  - unfold getPublicKey.
    destruct path as [s|q|]; simpl in Hpath; [|discriminate|split; reflexivity].
    unfold Js.bind at 1 3 5 7. unfold Js.bind at 1 2 3 4. unfold Js.lift at 1 2 3 4.
    rewrite Hpath. split; reflexivity.
Qed.

(** X22: with a usable path, [getPublicKey] leaves the client's network in
    the options object the caller passed, also when it throws afterwards,
    and makes at most one round trip: one whenever it returns, none when the
    command cannot be built. *)
Theorem getPublicKey_marks_options_one_round_trip (path : PathValue) (p : list Z)
    (given : option KeyOptions) (wire : Wire) :
  path_indices path = Ok p ->
  fst (snd (run_getPublicKey path (given, wire))) = set_network network <$> given /\
  exists packets,
    snd (snd (run_getPublicKey path (given, wire))) = wire ++ packets /\
    (length packets <= 1)%nat /\
    (is_ok (fst (run_getPublicKey path (given, wire))) = true -> length packets = 1%nat) /\
    (is_ok (getPublicKey_command p (set_network network (default no_options given)))
     = false -> packets = []).
Proof.
  intros Hpath. rewrite (getPublicKey_with_path _ _ _ _ Hpath).
  destruct (getPublicKey_command p _) as [packet|e]; simpl.
  - split; [reflexivity|]. exists [packet]. simpl. split_and!; [done|lia|done|done].
  - split; [reflexivity|]. exists []. simpl. rewrite app_nil_r.
    split_and!; [done|lia|done|done].
Qed.

End Queries.

End Client_queries_spec.

(** ** bin/hsd-ledger *)

Module cli_spec.
Import hsd cli.

Lemma lxor_hardened (m : Z) :
  0 <= m < 2 ^ 31 -> Z.lxor m (- 2 ^ 31) = m - 2 ^ 31.
Proof.
  intros Hm. symmetry. apply (Z.add_nocarry_lxor m (- 2 ^ 31)).
  apply Z.bits_inj'. intros i Hi. rewrite Z.land_spec, Z.bits_0.
  destruct (Z.lt_ge_cases i 31) as [Hlow|Hhigh].
  - change (- 2 ^ 31) with (Z.shiftl (-1) 31).
    rewrite (Z.shiftl_spec_low (-1) 31 i Hlow). apply andb_false_r.
  - rewrite <- (Z.mod_small m (2 ^ 31)) by lia.
    rewrite Z.mod_pow2_bits_high by lia. reflexivity.
Qed.

(** X23: on an unsigned 32-bit child index the account computed by
    createAddress is the index with its hardened bit flipped: a hardened
    index loses 2^31, an index that is not hardened gains it; the result is
    an unsigned 32-bit number again. *)
Theorem accountOf_flips_hardened_bit (childIndex : Z) :
  0 <= childIndex < 2 ^ 32 ->
  accountOf childIndex =
  (if childIndex <? HARDENED then childIndex + HARDENED else childIndex - HARDENED) /\
  0 <= accountOf childIndex < 2 ^ 32.
Proof.
  intros Hn.
  assert (Hflip : accountOf childIndex =
            if childIndex <? HARDENED then childIndex + HARDENED
            else childIndex - HARDENED).
  { unfold accountOf.
    assert (Hh : toInt32 HARDENED = - 2 ^ 31) by reflexivity. rewrite Hh.
    unfold toInt32, toUint32, HARDENED. rewrite (Z.mod_small childIndex) by lia.
    change 0x80000000 with (2 ^ 31).
    destruct (Z.ltb_spec childIndex (2 ^ 31)) as [Hlow|Hhigh].
    - rewrite lxor_hardened by lia. symmetry.
      apply (Z.mod_unique _ _ (-1)); lia.
    - replace (childIndex - 2 ^ 32) with (childIndex - 2 ^ 31 - 2 ^ 31) by lia.
      rewrite <- (lxor_hardened (childIndex - 2 ^ 31)) by lia.
      rewrite Z.lxor_assoc, Z.lxor_nilpotent, Z.lxor_0_r.
      apply Z.mod_small. lia. }
  split; [exact Hflip|]. rewrite Hflip. unfold HARDENED.
  destruct (Z.ltb_spec childIndex 0x80000000); lia.
Qed.

Section ChangeOutput.
Variable getKey : Address -> Outcome (option WalletKey).

Local Abbreviation scan := (scan getKey).
Local Abbreviation findChange := (findChange getKey).

(** The wallet knows the output's address, but not as a change address. *)
Local Abbreviation no_change :=
  (fun output : Output =>
     exists key, getKey (address output) = Returned key /\ has_branch key = false).

Lemma scan_returned (outputs : list Output) (n : nat) :
  forall key i key',
  has_branch key = false ->
  scan outputs n key = Returned (i, key') ->
  (i = -1 /\ has_branch key' = false /\
   forall j output, (j < n)%nat -> outputs !! j = Some output -> no_change output) \/
  (exists m output,
     i = Z.of_nat m /\ (m < n)%nat /\ outputs !! m = Some output /\
     getKey (address output) = Returned key' /\ has_branch key' = true /\
     forall j output', (m < j < n)%nat -> outputs !! j = Some output' ->
       no_change output').
Proof.
  induction n as [|n IH]; intros key i key' Hkey Hscan; simpl in Hscan.
  - injection Hscan as <- <-. left. split; [reflexivity|]. split; [exact Hkey|].
    intros j output Hj. lia.
  - destruct (outputs !! n) as [output|] eqn:Hout; [|discriminate].
    destruct (getKey (address output)) as [fetched|t] eqn:Hfetched; [|discriminate].
    destruct (has_branch fetched) eqn:Hbranch.
    + injection Hscan as <- <-. right. exists n, output.
      split; [reflexivity|]. split; [lia|]. do 3 (split; [assumption|]).
      intros j output' Hj. lia.
    + destruct (IH fetched i key' Hbranch Hscan)
        as [(Hi & Hk & Hall)|(m & o & Hi & Hm & Ho & Hg & Hb & Hall)].
      * left. do 2 (split; [assumption|]). intros j output' Hj Hlook.
        destruct (decide (j = n)) as [->|Hne].
        -- rewrite Hout in Hlook. injection Hlook as <-. eauto.
        -- apply (Hall j); [lia|assumption].
      * right. exists m, o. split; [assumption|]. split; [lia|].
        do 3 (split; [assumption|]). intros j output' Hj Hlook.
        destruct (decide (j = n)) as [->|Hne].
        -- rewrite Hout in Hlook. injection Hlook as <-. eauto.
        -- apply (Hall j); [lia|assumption].
Qed.

Lemma scan_finds (outputs : list Output) (m : nat) (output : Output)
    (found : option WalletKey) (n : nat) :
  forall key,
  outputs !! m = Some output ->
  getKey (address output) = Returned found ->
  has_branch found = true ->
  (m < n <= length outputs)%nat ->
  (forall j output', (m < j < n)%nat -> outputs !! j = Some output' ->
     no_change output') ->
  scan outputs n key = Returned (Z.of_nat m, found).
Proof.
  induction n as [|n IH]; intros key Hout Hfound Hbranch Hn Hall; [lia|].
  simpl. destruct (decide (m = n)) as [->|Hne].
  - by rewrite Hout, Hfound, Hbranch.
  - destruct (lookup_lt_is_Some_2 outputs n ltac:(lia)) as [o Ho]. rewrite Ho.
    destruct (Hall n o ltac:(lia) Ho) as (fetched & -> & ->).
    apply IH; try assumption; [lia|]. intros j output' Hj. apply Hall. lia.
Qed.

Lemma scan_runs_out (outputs : list Output) (n : nat) :
  forall key,
  has_branch key = false ->
  (n <= length outputs)%nat ->
  (forall j output, (j < n)%nat -> outputs !! j = Some output -> no_change output) ->
  exists key', scan outputs n key = Returned (-1, key') /\ has_branch key' = false.
Proof.
  induction n as [|n IH]; intros key Hkey Hn Hall; simpl; [by eauto|].
  destruct (lookup_lt_is_Some_2 outputs n ltac:(lia)) as [o Ho]. rewrite Ho.
  destruct (Hall n o ltac:(lia) Ho) as (fetched & -> & Hbranch). rewrite Hbranch.
  apply IH; [assumption|lia|]. intros j output Hj. apply Hall. lia.
Qed.

(** X24: sendToAddress takes as change output exactly the last output of
    the transaction for which the wallet returns a key with a branch that
    is not zero, provided the wallet answered for every output after it
    with a key that has none; the outputs before it are never asked
    about. *)
Theorem findChange_takes_last_branch_key (mtx : MTX) (i : Z) (k : WalletKey) :
  findChange mtx = Returned (i, k) <->
  exists m output,
    i = Z.of_nat m /\ outputs mtx !! m = Some output /\
    getKey (address output) = Returned (Some k) /\ key_branch k <> 0 /\
    forall j output', (m < j)%nat -> outputs mtx !! j = Some output' ->
      no_change output'.
Proof.
  unfold cli.findChange. split.
  - destruct (scan (outputs mtx) (length (outputs mtx)) None) as [[i' key]|t] eqn:Hscan;
      [|discriminate].
    destruct key as [k'|]; [|discriminate].
    destruct (has_branch (Some k')) eqn:Hbranch; [|discriminate].
    intros [= -> ->].
    destruct (scan_returned _ _ None _ _ eq_refl Hscan)
      as [(_ & Hk & _)|(m & o & Hi & Hm & Ho & Hg & Hb & Hall)]; [congruence|].
    exists m, o. do 3 (split; [assumption|]). split.
    + simpl in Hb. apply negb_true_iff in Hb. lia.
    + intros j output' Hj Hlook. apply (Hall j); [|assumption].
      split; [assumption|]. apply lookup_lt_is_Some_1. eauto.
  - intros (m & o & -> & Ho & Hg & Hb & Hall).
    assert (Hbranch : has_branch (Some k) = true)
      by (simpl; apply negb_true_iff; lia).
    rewrite (scan_finds (outputs mtx) m o (Some k)); try assumption.
    + by rewrite Hbranch.
    + split; [|lia]. apply lookup_lt_is_Some_1. eauto.
    + intros j output' Hj. apply Hall. lia.
Qed.

(** X25: when the wallet answers for every output with no key or a key
    whose branch is zero, and so also for a transaction without outputs,
    sendToAddress throws the plain error asking for a change address. *)
Theorem findChange_expects_change (mtx : MTX) :
  (forall output, output ∈ outputs mtx -> no_change output) ->
  findChange mtx = Threw (PlainError "Expected change address.").
Proof.
  intros Hall. unfold cli.findChange.
  destruct (scan_runs_out (outputs mtx) (length (outputs mtx)) None eq_refl (le_n _))
    as (key & -> & Hkey).
  - intros j output _ Hlook. apply Hall. by eapply list_elem_of_lookup_2.
  - destruct key; [rewrite Hkey|]; reflexivity.
Qed.

(** X26: a failing wallet query is not skipped: when the wallet fails for
    an output and answered for every output after it with a key that has no
    branch, sendToAddress fails with it, whatever the outputs before hold. *)
Theorem findChange_stops_at_failed_query (mtx : MTX) (m : nat) (output : Output)
    (t : Thrown) :
  outputs mtx !! m = Some output ->
  getKey (address output) = Threw t ->
  (forall j output', (m < j)%nat -> outputs mtx !! j = Some output' ->
     no_change output') ->
  findChange mtx = Threw t.
Proof.
  intros Hout Hfail Hall. unfold cli.findChange.
  assert (Hscan : forall n key, (m < n <= length (outputs mtx))%nat ->
            scan (outputs mtx) n key = Threw t).
  { induction n as [|n IH]; intros key Hn; [lia|]. simpl.
    destruct (decide (m = n)) as [->|Hne].
    - by rewrite Hout, Hfail.
    - destruct (lookup_lt_is_Some_2 (outputs mtx) n ltac:(lia)) as [o Ho]. rewrite Ho.
      destruct (Hall n o ltac:(lia) Ho) as (fetched & -> & ->). apply IH. lia. }
  rewrite Hscan; [reflexivity|]. split; [|lia]. apply lookup_lt_is_Some_1. eauto.
Qed.

End ChangeOutput.

End cli_spec.

(** ** The further properties on the sample data *)

Module Examples_more.
Import hsd Input Input_more Lifecycle Client Client_queries.

#[local] Existing Instance Sample.externals.
#[local] Existing Instance Sample.writable_outpoint.
#[local] Existing Instance Sample.writable_address.
#[local] Existing Instance Sample.writable_covenant.

Lemma fromOptions_overwrites_path_witness :
  fst (fromOptions (Some Sample_more.options_rejected) Sample.ledger_input) =
  Throw (AssertionError "Ledger only supports SIGHASH_ALL") /\
  path (snd (fromOptions (Some Sample_more.options_rejected) Sample.ledger_input)) =
  [44; 5353; 9; 9; 9].
Proof.
  split; [reflexivity|].
  apply (Input_more_spec.fromOptions_overwrites_path Sample_more.options_rejected).
  reflexivity.
Defined.

Lemma fromOptions_ignores_second_coin_witness :
  coin (snd (fromOptions (Some Sample_more.options_other_key) Sample.ledger_input)) =
  Some (Sample.coin_at Sample.pubkeyhash_address) /\
  fromOptions
    (Some {| opt_path := opt_path Sample_more.options_other_key;
             opt_coin := Some (Sample.coin_at Sample.scripthash_address);
             opt_redeem := opt_redeem Sample_more.options_other_key;
             opt_publicKey := opt_publicKey Sample_more.options_other_key;
             opt_type := opt_type Sample_more.options_other_key |})
    Sample.ledger_input
  = fromOptions (Some Sample_more.options_other_key) Sample.ledger_input.
Proof.
  apply (Input_more_spec.fromOptions_ignores_second_coin
           Sample_more.options_other_key
           (Some (Sample.coin_at Sample.scripthash_address)) Sample.ledger_input).
  reflexivity.
Defined.

Lemma getRing_stale_after_fromOptions_witness :
  publicKey (snd (fromOptions (Some Sample_more.options_other_key)
                    Sample_more.ledger_input_ringed)) = Some Sample_more.key2 /\
  getRing main (snd (fromOptions (Some Sample_more.options_other_key)
                       Sample_more.ledger_input_ringed)) =
  (Ok (mkKeyRing Sample.key1 testnet None),
   snd (fromOptions (Some Sample_more.options_other_key)
          Sample_more.ledger_input_ringed)).
Proof.
  split; [reflexivity|].
  apply Input_more_spec.getRing_stale_after_fromOptions.
  - reflexivity.
  - exists Sample.key1. reflexivity.
Defined.

Lemma refresh_recomputes_witness :
  fst (getRing primary (snd (refresh Sample_more.ledger_input_ringed))) =
  Ok (mkKeyRing Sample.key1 main None) /\
  fst (getPrev (snd (refresh Sample_more.ledger_input_ringed))) =
  Ok (pubkeyhashScript (mkKeyRing Sample.key1 main None)) /\
  fst (getOutpoint (snd (refresh Sample_more.ledger_input_ringed))) =
  Ok (outpointOf (Sample.coin_at Sample.pubkeyhash_address)) /\
  fst (toKey (snd (refresh Sample_more.ledger_input_ringed))) =
  Ok (outpointKey (outpointOf (Sample.coin_at Sample.pubkeyhash_address))).
Proof.
  apply (Input_more_spec.refresh_recomputes Sample_more.ledger_input_ringed
           Sample.key1 (Sample.coin_at Sample.pubkeyhash_address)
           (mkKeyRing Sample.key1 main None)); reflexivity.
Defined.

Lemma getOutpoint_and_toKey_follow_coin_witness :
  fst (getOutpoint Sample_more.ledger_input_keyless) =
  Ok (outpointOf (Sample.coin_at Sample.pubkeyhash_address)) /\
  fst (toKey Sample_more.ledger_input_keyless) =
  Ok (outpointKey (outpointOf (Sample.coin_at Sample.pubkeyhash_address))).
Proof.
  apply (Input_more_spec.getOutpoint_and_toKey_follow_coin
           Sample_more.ledger_input_keyless).
  apply reachable_call, reachable_new.
Defined.

Lemma parseTX_writes_prefix_witness :
  exists k,
    (1 <= k <= length Sample.tx_packets)%nat /\
    snd (parseTX 50 Sample.tx_command (Sample.device_failing_at 1 [x69; x85])
           Sample.mtx ∅ []) = [] ++ take k Sample.tx_packets /\
    (fst (parseTX 50 Sample.tx_command (Sample.device_failing_at 1 [x69; x85])
            Sample.mtx ∅ []) = Ok tt -> k = length Sample.tx_packets).
Proof.
  apply Client_more_spec.parseTX_writes_prefix. vm_compute. reflexivity.
Defined.

Lemma parseTX_stops_at_first_failure_witness :
  parseTX 50 Sample.tx_command (Sample.device_failing_at 1 [x6a; x82])
    Sample.mtx ∅ [] =
  (Throw (LedgerError "File not found" (Some 0x6a82)),
   [] ++ take 2 Sample.tx_packets).
Proof.
  apply Client_more_spec.parseTX_stops_at_first_failure.
  - vm_compute. reflexivity.
  - apply Nat.ltb_lt. vm_compute. reflexivity.
  - intros i Hi. assert (i = 0%nat) as -> by lia. vm_compute. reflexivity.
  - vm_compute. reflexivity.
Defined.

Lemma parseTX_unbuilt_writes_nothing_witness :
  parseTX 50 Sample_more.tx_command_refusing (Sample.device_failing_at 1 [x69; x85])
    Sample.mtx ∅ [] =
  (Throw (AssertionError "data must be a Buffer"), []).
Proof.
  apply Client_more_spec.parseTX_unbuilt_writes_nothing. reflexivity.
Defined.

Lemma getInputSignature_needs_public_key_witness :
  getInputSignature 4 Sample.sig_command Sample.sig_response
    (Sample.device_signing_at 3 Sample.signature) Sample.hsd_input
    (Sample_more.ledger_input_keyless, []) =
  (Throw (LedgerError "Cannot return ring without public key" None),
   (Sample_more.ledger_input_keyless, [])).
Proof.
  apply (Client_more_spec.getInputSignature_needs_public_key 4 Sample.sig_command
           Sample.sig_response (Sample.device_signing_at 3 Sample.signature)
           Sample.hsd_input Sample_more.ledger_input_keyless
           (Sample.coin_at Sample.pubkeyhash_address) []).
  - apply reachable_call, reachable_new.
  - reflexivity.
  - reflexivity.
  - reflexivity.
Defined.

Lemma getInputSignature_null_redeem_witness :
  getPrevRedeem Sample_more.scripthash_input_bare =
  (Ok None, Sample_more.scripthash_input_bare) /\
  getInputSignature 4 Sample.sig_command Sample.sig_response
    (Sample.device_signing_at 3 Sample.signature) Sample.hsd_input
    (Sample_more.scripthash_input_bare, []) =
  (Throw (TypeError "Cannot read properties of null"),
   (Sample_more.scripthash_input_bare, [])).
Proof.
  apply (Client_more_spec.getInputSignature_null_redeem 4 Sample.sig_command
           Sample.sig_response (Sample.device_signing_at 3 Sample.signature)
           Sample.hsd_input Sample_more.scripthash_input_bare
           (Sample.coin_at Sample.scripthash_address) []); reflexivity.
Defined.

Lemma getInputSignature_stops_at_failed_ack_witness :
  getInputSignature 4 Sample.sig_command Sample.sig_response
    (Sample.device_failing_at 1 [x69; x85]) Sample.hsd_input
    (Sample.ledger_input, []) =
  (Throw (LedgerError "User rejected on-screen confirmation" (Some 0x6985)),
   (Sample.ledger_input_used, [] ++ take 2 Sample.sig_packets)).
Proof.
  apply (Client_more_spec.getInputSignature_stops_at_failed_ack 4 Sample.sig_command
           Sample.sig_response (Sample.device_failing_at 1 [x69; x85])
           Sample.hsd_input Sample.ledger_input Sample.ledger_input_used
           Sample.prev_script [] Sample.sig_packets 1).
  - vm_compute. reflexivity.
  - vm_compute. reflexivity.
  - apply Nat.ltb_lt. vm_compute. reflexivity.
  - intros i Hi. assert (i = 0%nat) as -> by lia. vm_compute. reflexivity.
  - vm_compute. reflexivity.
Defined.

Lemma getInputSignature_writes_prefix_witness :
  exists k,
    (1 <= k <= length Sample.sig_packets)%nat /\
    snd (getInputSignature 4 Sample.sig_command Sample.sig_response
           (Sample.device_signing_at 3 Sample.signature) Sample.hsd_input
           (Sample.ledger_input, [])) =
    (Sample.ledger_input_used, [] ++ take k Sample.sig_packets) /\
    (is_ok (fst (getInputSignature 4 Sample.sig_command Sample.sig_response
                   (Sample.device_signing_at 3 Sample.signature) Sample.hsd_input
                   (Sample.ledger_input, []))) = true ->
     k = length Sample.sig_packets).
Proof.
  apply (Client_more_spec.getInputSignature_writes_prefix 4 Sample.sig_command
           Sample.sig_response (Sample.device_signing_at 3 Sample.signature)
           Sample.hsd_input Sample.ledger_input Sample.ledger_input_used
           Sample.prev_script [] Sample.sig_packets).
  - vm_compute. reflexivity.
  - vm_compute. reflexivity.
Defined.

Lemma getPublicKey_bad_path_writes_nothing_witness :
  getPublicKey regtest Sample_more.key_command (list byte) Sample_more.key_response
    (Sample.device_signing_at 1 Sample.key1) PathOther
    (Some Sample_more.key_options, []) =
  (Throw (AssertionError "path must be a String or Array"),
   (Some Sample_more.key_options, [])).
Proof.
  apply Client_queries_spec.getPublicKey_bad_path_writes_nothing. reflexivity.
Defined.

Lemma getPublicKey_marks_options_one_round_trip_witness :
  fst (snd (getPublicKey testnet Sample_more.key_command (list byte)
              Sample_more.key_response (Sample.device_signing_at 1 Sample.key1)
              (PathArray [44; 5353; 0]) (Some Sample_more.key_options, []))) =
  set_network testnet <$> Some Sample_more.key_options /\
  exists packets,
    snd (snd (getPublicKey testnet Sample_more.key_command (list byte)
                Sample_more.key_response (Sample.device_signing_at 1 Sample.key1)
                (PathArray [44; 5353; 0]) (Some Sample_more.key_options, []))) =
    [] ++ packets /\
    (length packets <= 1)%nat /\
    (is_ok (fst (getPublicKey testnet Sample_more.key_command (list byte)
                   Sample_more.key_response (Sample.device_signing_at 1 Sample.key1)
                   (PathArray [44; 5353; 0]) (Some Sample_more.key_options, [])))
     = true -> length packets = 1%nat) /\
    (is_ok (Sample_more.key_command [44; 5353; 0]
              (set_network testnet (default no_options (Some Sample_more.key_options))))
     = false -> packets = []).
Proof.
  apply (Client_queries_spec.getPublicKey_marks_options_one_round_trip testnet
           Sample_more.key_command (list byte) Sample_more.key_response
           (Sample.device_signing_at 1 Sample.key1) (PathArray [44; 5353; 0])
           [44; 5353; 0] (Some Sample_more.key_options) []).
  reflexivity.
Defined.

Lemma accountOf_flips_hardened_bit_witness :
  cli.accountOf 0x80000005 =
  (if 0x80000005 <? cli.HARDENED then 0x80000005 + cli.HARDENED
   else 0x80000005 - cli.HARDENED) /\
  0 <= cli.accountOf 0x80000005 < 2 ^ 32.
Proof.
  apply (cli_spec.accountOf_flips_hardened_bit 0x80000005). lia.
Defined.

Lemma findChange_expects_change_witness :
  cli.findChange Sample_more.wallet Sample.mtx =
  cli.Threw (cli.PlainError "Expected change address.").
Proof.
  apply cli_spec.findChange_expects_change.
  intros output Hin.
  apply elem_of_cons in Hin as [->|Hin];
    [|apply elem_of_cons in Hin as [->|Hin]; [|by apply elem_of_nil in Hin]];
    eexists; (split; [reflexivity|reflexivity]).
Defined.

Lemma findChange_stops_at_failed_query_witness :
  cli.findChange Sample_more.wallet_failing Sample.mtx =
  cli.Threw (cli.PlainError "Status code: 500.").
Proof.
  apply (cli_spec.findChange_stops_at_failed_query Sample_more.wallet_failing
           Sample.mtx 1
           {| value := 399; address := Sample.scripthash_address;
              covenant := {| covenant_type := 0; covenant_items := [] |} |}).
  - reflexivity.
  - reflexivity.
  - intros j output' Hj Hlook. destruct j as [|[|j]]; [lia|lia|discriminate].
Defined.

End Examples_more.
